(** * ibkr_news_bot_m3: seen-id store, time rendering and the news cycle

    A shallow embedding of [ibkr_news_bot_m3.py].  Python [str] values are
    sequences of Unicode code points, the seen-id [set] is a finite set of
    such strings, and the calls that leave the process (the IB gateway, the
    console, the file system, the clock) are answered by an explicit
    environment value, so that every function below is executable. *)

From Stdlib Require Import ZArith List Ascii String DecimalString Lia.
From stdpp Require Import base decidable list sorting gmap sets.

Local Open Scope Z_scope.

(** ** Python strings *)

Module PyStr.

(** A character is its code point; a [str] is the list of its characters. *)
Abbreviation char := N (only parsing).
Abbreviation str := (list N) (only parsing).

(** A literal, from its ASCII spelling. *)
Definition lit (s : string) : str :=
  List.map N_of_ascii (list_ascii_of_string s).

Definition LF : char := 10%N.
Definition CR : char := 13%N.

(** [str.isspace] on one character: the code points CPython's
    [Py_UNICODE_ISSPACE] accepts. *)
Definition isspace (c : char) : bool :=
  ((9 <=? c) && (c <=? 13) || (28 <=? c) && (c <=? 32)
   || (c =? 133) || (c =? 160) || (c =? 5760)
   || (8192 <=? c) && (c <=? 8202)
   || (c =? 8232) || (c =? 8233) || (c =? 8239) || (c =? 8287)
   || (c =? 12288))%N.

(** [s.lstrip()], [s.rstrip()] and [s.strip()] without argument. *)
Fixpoint lstrip (s : str) : str :=
  match s with
  | c :: s' => if isspace c then lstrip s' else s
  | [] => []
  end.

Definition rstrip (s : str) : str := reverse (lstrip (reverse s)).

Definition strip (s : str) : str := rstrip (lstrip s).

(** [str(n)] / [f"{n}"] for an [int]. *)
Definition of_int (z : Z) : str := lit (NilZero.string_of_int (Z.to_int z)).

(** [sep.join(parts)]. *)
Fixpoint join (sep : str) (parts : list str) : str :=
  match parts with
  | [] => []
  | [p] => p
  | p :: ps => p ++ sep ++ join sep ps
  end.

(** Comparison of two [str]: lexicographic on code points, a proper prefix
    first.  [le] is the order [sorted] uses. *)
Fixpoint leb (a b : str) : bool :=
  match a, b with
  | [], _ => true
  | _ :: _, [] => false
  | x :: a', y :: b' => (x <? y)%N || ((x =? y)%N && leb a' b')
  end.

Definition le (a b : str) : Prop := leb a b = true.

End PyStr.

Import PyStr.

(** ** Results of calls that may raise *)

(** What a raised exception is to a handler: an instance of [Exception],
    which [except Exception] catches, or one of the other
    [BaseException]s ([KeyboardInterrupt], [SystemExit],
    [asyncio.CancelledError]), which it lets through. *)
Inductive exn : Type :=
| Exception
| Interrupt.

Inductive outcome (A : Type) : Type :=
| Raises (e : exn) : outcome A
| Returns (a : A) : outcome A.
Arguments Raises {A} e.
Arguments Returns {A} a.

(** ** The clock and [short_time_ago] *)

Module Clock.

(** A naive [datetime], as the number of microseconds of wall-clock time
    since 1970-01-01 00:00:00; a [timedelta] is a difference of two. *)
Definition datetime := Z.
Definition timedelta := Z.

(** What the process reads from its surroundings: the time of the system
    clock, in microseconds since the epoch, and the rule of the local
    zone, the offset from UTC (in seconds) in force at a given second
    since the epoch. *)
Record clock := {
  time_us : Z;
  utcoffset : Z -> Z
}.

(** A clock in a zone with a fixed offset (in seconds) from UTC, read at
    [t_us] microseconds after the epoch. *)
Definition fixed_offset_clock (offset t_us : Z) : clock :=
  {| time_us := t_us; utcoffset := fun _ => offset |}.

(** The datetimes of Python: 0001-01-01 00:00:00 up to the end of
    9999-12-31. *)
Definition datetime_range (dt : datetime) : Prop :=
  -62135596800000000 <= dt < 253402300800000000.

(** The wall-clock time, in seconds since 1970-01-01 00:00:00, that the
    local zone shows at a second since the epoch, and whether such a time
    lies in a year from 1 to 9999. *)
Definition local_seconds (clk : clock) (t : Z) : Z := t + utcoffset clk t.

Definition year_in_range (secs : Z) : bool :=
  (-62135596800 <=? secs) && (secs <? 253402300800).

(** Whether the second [t] since the epoch has a local naive datetime.
    The conversion looks at the local time of [t], at the local time a
    day earlier (to see whether an hour was repeated) and, when the
    offset went down during that day, at the local time of one more
    second in between; a year outside 1 .. 9999 at any of them is a
    [ValueError]. *)
Definition converts (clk : clock) (t : Z) : bool :=
  let probe := local_seconds clk (t - 86400) in
  let transition := local_seconds clk t - probe - 86400 in
  year_in_range (local_seconds clk t) && year_in_range probe
  && ((0 <=? transition)
      || year_in_range (local_seconds clk (t + transition))).

(** The local naive datetime of an instant, given in microseconds since
    the epoch. *)
Definition local_datetime (clk : clock) (us : Z) : outcome datetime :=
  let t := us / 1000000 in
  if converts clk t then Returns (us + utcoffset clk t * 1000000)
  else Raises Exception.

(** [datetime.fromtimestamp(ts)] for an [int] of seconds, and
    [datetime.now()]. *)
Definition fromtimestamp (clk : clock) (ts : Z) : outcome datetime :=
  local_datetime clk (ts * 1000000).

Definition now (clk : clock) : outcome datetime :=
  local_datetime clk (time_us clk).

(** The integer nearest to [n / d], a tie going to the even one
    ([0 <= n], [0 < d]). *)
Definition round_half_even (n d : Z) : Z :=
  let q := n / d in
  let r := n mod d in
  if 2 * r <? d then q
  else if d <? 2 * r then q + 1
  else if Z.even q then q else q + 1.

(** The binary exponent of [a / d]: the [k] with
    [2^k <= a / d < 2^(k+1)] ([0 < a], [0 < d]). *)
Definition binade (a d : Z) : Z :=
  if d <=? a then Z.log2 (a / d) else - Z.log2_up ((d + a - 1) / a).

(** [int(a / d)] for two [int]s, [0 <= a] and [0 < d]: the true division
    gives the double nearest to the quotient, a significand of 53 bits
    times a power of two, and [int] drops its fraction. *)
Definition int_true_divide (a d : Z) : Z :=
  if a =? 0 then 0
  else
    let shift := 52 - binade a d in
    if 0 <=? shift then round_half_even (a * 2 ^ shift) d / 2 ^ shift
    else round_half_even a (d * 2 ^ (- shift)) * 2 ^ (- shift).

(** [int(diff.total_seconds())]: [total_seconds] divides the microseconds
    of the difference by [10**6] as above, the sign apart, and [int]
    truncates toward zero. *)
Definition int_total_seconds (diff : timedelta) : Z :=
  Z.sgn diff * int_true_divide (Z.abs diff) 1000000.

(** The day [doe] of a 400-year era that starts on a 1 March: the year
    within the era (counted from January), the month and the day. *)
Definition civil_of_era_day (doe : Z) : Z * Z * Z :=
  let yoe := (doe - doe / 1460 + doe / 36524 - doe / 146096) / 365 in
  let doy := doe - (365 * yoe + yoe / 4 - yoe / 100) in
  let mp := (5 * doy + 2) / 153 in
  let d := doy - (153 * mp + 2) / 5 + 1 in
  let m := if mp <? 10 then mp + 3 else mp - 9 in
  (if m <=? 2 then yoe + 1 else yoe, m, d).

(** Days since 1970-01-01 to the proleptic Gregorian (year, month, day). *)
Definition civil_from_days (days : Z) : Z * Z * Z :=
  let z := days + 719468 in
  let era := z / 146097 in
  let '(y, m, d) := civil_of_era_day (z - era * 146097) in
  (y + era * 400, m, d).

(** [f"{n:0{w}d}"] for a non-negative [n]. *)
Definition zero_pad (w : nat) (n : Z) : str :=
  let digits := of_int n in
  repeat 48%N (w - length digits) ++ digits.

(** [dt.isoformat(" ", "seconds")]. *)
Definition isoformat_seconds (dt : datetime) : str :=
  let secs := dt / 1000000 in
  let sod := secs mod 86400 in
  let '(y, m, d) := civil_from_days (secs / 86400) in
  zero_pad 4 y ++ lit "-" ++ zero_pad 2 m ++ lit "-" ++ zero_pad 2 d
    ++ lit " " ++ zero_pad 2 (sod / 3600) ++ lit ":"
    ++ zero_pad 2 (sod mod 3600 / 60) ++ lit ":" ++ zero_pad 2 (sod mod 60).

(** [short_time_ago(ts)]; the argument is [None] for Python's [None]. *)
Definition short_time_ago (clk : clock) (ts : option Z) : outcome str :=
  match ts with
  | None => Returns (lit "unknown time")
  | Some t =>
    if t =? 0 then Returns (lit "unknown time")
    else
      match fromtimestamp clk t with
      | Raises e => Raises e
      | Returns dt =>
        match now clk with
        | Raises e => Raises e
        | Returns current =>
          let diff := current - dt in
          let s := int_total_seconds diff in
          if s <? 60 then Returns (of_int s ++ lit "s ago")
          else if s <? 3600 then Returns (of_int (s / 60) ++ lit "m ago")
          else if s <? 86400 then Returns (of_int (s / 3600) ++ lit "h ago")
          else Returns (isoformat_seconds dt)
        end
      end
  end.

(** *** Reading a rendering back *)

Definition is_digit (c : char) : bool := ((48 <=? c) && (c <=? 57))%N.

(** The form YYYY-MM-DD HH:MM:SS. *)
Definition iso_shape (text : str) : bool :=
  match text with
  | [y1; y2; y3; y4; d1; m1; m2; d2; a1; a2; sp; h1; h2; c1; n1; n2; c2;
     s1; s2] =>
    forallb is_digit [y1; y2; y3; y4; m1; m2; a1; a2; h1; h2; n1; n2; s1; s2]
    && (d1 =? 45)%N && (d2 =? 45)%N && (sp =? 32)%N
    && (c1 =? 58)%N && (c2 =? 58)%N
  | _ => false
  end.

(** The number a run of decimal digits spells. *)
Definition digits_value (digits : str) : Z :=
  fold_left (fun acc c => 10 * acc + (Z.of_N c - 48)) digits 0.

(** The days from 1970-01-01 to a date of the proleptic Gregorian
    calendar. *)
Definition days_from_civil (y m d : Z) : Z :=
  let y' := if m <=? 2 then y - 1 else y in
  let era := y' / 400 in
  let yoe := y' - era * 400 in
  let doy := (153 * (if 2 <? m then m - 3 else m + 9) + 2) / 5 + d - 1 in
  let doe := yoe * 365 + yoe / 4 - yoe / 100 + doy in
  era * 146097 + doe - 719468.

(** The second a text of the form YYYY-MM-DD HH:MM:SS names, counted on
    the scale of the naive datetimes. *)
Definition iso_seconds (text : str) : option Z :=
  match text with
  | [y1; y2; y3; y4; _; m1; m2; _; a1; a2; _; h1; h2; _; n1; n2; _; s1; s2] =>
    if iso_shape text then
      Some (days_from_civil (digits_value [y1; y2; y3; y4])
                            (digits_value [m1; m2]) (digits_value [a1; a2])
            * 86400
            + digits_value [h1; h2] * 3600 + digits_value [n1; n2] * 60
            + digits_value [s1; s2])
    else None
  | _ => None
  end.

(** [f z] for [fuel] consecutive integers from [z] on. *)
Fixpoint all_from (f : Z -> bool) (fuel : nat) (z : Z) : bool :=
  match fuel with
  | O => true
  | S fuel' => f z && all_from f fuel' (z + 1)
  end.

Definition pads_to (w : nat) (n : Z) : bool :=
  (length (zero_pad w n) =? w)%nat && forallb is_digit (zero_pad w n)
  && (digits_value (zero_pad w n) =? n).

Definition era_day_ok (doe : Z) : bool :=
  let '(y, m, d) := civil_of_era_day doe in
  (1 <=? m) && (m <=? 12) && (1 <=? d) && (d <=? 31)
  && (0 <=? y) && (y <=? 400)
  && ((doe <? 306) || (1 <=? y)) && ((146036 <? doe) || (y <=? 399))
  && (days_from_civil y m d =? doe - 719468).

End Clock.

Import Clock.

(** ** The seen-id store *)

Module SeenStore.

(** The state of the path [SEEN_ARTICLE_IDS_FILE]: no such file, a text
    file with the given content, or something [open] or the read fails on
    (a directory, a file without permission, bytes that are not UTF-8).
    The content is the decoded text: what is written as UTF-8 is read
    back as the same code points. *)
Inductive storage : Type :=
| Absent
| File (content : str)
| Blocked.

(** Reading in text mode with the default [newline=None]: a CR LF pair and
    a lone CR both arrive as LF.  The flag tells that the previous
    character was a CR. *)
Fixpoint universal_newlines (after_cr : bool) (s : str) : str :=
  match s with
  | [] => []
  | c :: s' =>
    if (c =? CR)%N then LF :: universal_newlines true s'
    else if (c =? LF)%N then
      (if after_cr then universal_newlines false s'
       else LF :: universal_newlines false s')
    else c :: universal_newlines false s'
  end.

(** [for line in f]: the lines of the text, each with its terminator; the
    last one may lack it. *)
Fixpoint readlines (s : str) : list str :=
  match s with
  | [] => []
  | c :: s' =>
    if (c =? LF)%N then [c] :: readlines s'
    else match readlines s' with
         | [] => [[c]]
         | l :: ls => (c :: l) :: ls
         end
  end.

(** The set comprehension [{line.strip() for line in f if line.strip()}]. *)
Definition seen_of_text (text : str) : gset str :=
  list_to_set
    (List.map strip
       (List.filter (fun line => negb (bool_decide (strip line = [])))
          (readlines text))).

Definition load_seen_ids (path : storage) : outcome (gset str) :=
  match path with
  | Absent => Returns ∅
  | File content => Returns (seen_of_text (universal_newlines false content))
  | Blocked => Raises Exception
  end.

#[global] Instance le_dec (a b : str) : Decision (PyStr.le a b).
Proof. unfold PyStr.le. apply _. Defined.

(** [sorted(ids)]: the set's elements, in whatever order the set yields
    them, sorted by [<=] on [str]. *)
Definition sorted_list (l : list str) : list str := merge_sort PyStr.le l.
Definition sorted (ids : gset str) : list str := sorted_list (elements ids).

(** The text written by [f.write(f"{_id}\n")] for each id in turn (the
    line separator of the platform is LF). *)
Fixpoint write_lines (ids : list str) : str :=
  match ids with
  | [] => []
  | _id :: rest => (_id ++ [LF]) ++ write_lines rest
  end.

(** [save_seen_ids]: [open(path, "w")] truncates or creates the file, or
    raises and leaves the path as it was. *)
Definition save_seen_ids (path : storage) (ids : gset str)
  : outcome unit * storage :=
  match path with
  | Blocked => (Raises Exception, Blocked)
  | Absent | File _ => (Returns tt, File (write_lines (sorted ids)))
  end.

(** A key that a text line can carry: not empty, no white space at either
    end, no line break inside. *)
Definition storable (k : str) : Prop :=
  (exists c, head k = Some c /\ isspace c = false) /\
  (exists c, last k = Some c /\ isspace c = false) /\
  Forall (fun c => c <> LF /\ c <> CR) k.

End SeenStore.

Import SeenStore.

(** ** The news cycle *)

Module Bot.

(** A news tick as [fetch_and_publish_news] reads it, through [getattr]
    with a default: [None] stands for a missing attribute (for
    [timeStamp], [headline] and [extraData] also for the value [None]). *)
Record NewsTick := {
  providerCode : option str;
  articleId : option str;
  headline : option str;
  timeStamp : option Z;
  extraData : option str
}.

(** [getattr(obj, name, default)] on a field read as above. *)
Definition getattr {A} (field : option A) (default : A) : A :=
  match field with Some v => v | None => default end.

(** [f"{getattr(nt, 'providerCode', '')}:{getattr(nt, 'articleId', '')}"] *)
Definition article_key (nt : NewsTick) : str :=
  getattr (providerCode nt) [] ++ lit ":" ++ getattr (articleId nt) [].

(** A contract; [conId = 0] is the unqualified (falsy) one. *)
Record Contract := { conId : Z }.

(** The configuration globals the cycle reads. [telegram] is
    [session and TELEGRAM_BOT_TOKEN and TELEGRAM_CHAT_ID]. *)
Record Config := {
  FETCH_ARTICLE_BODY : bool;
  telegram : bool
}.

(** What the surroundings answer while one tick is handled: the article
    body request of the gateway ([str(art)], or an exception) and the
    console write [print(text); print()]. *)
Record TickIO := {
  tick : NewsTick;
  reqNewsArticle : outcome str;
  print_block : outcome unit
}.

(** What the gateway answers for one symbol during a cycle. *)
Record SymbolIO := {
  qualifyContracts : outcome (list Contract);
  reqHistoricalNews : outcome (list TickIO)
}.

Definition Gateway := str -> SymbolIO.

(** What the process does that can be observed: requests, console blocks,
    chat messages and log records, in the order they happen; for a tick
    that raises before or in its console write, a mark of where. *)
Inductive event : Type :=
| Requested (symbol : str) (req_id conId : Z)
| Unqualified (symbol : str)
| NoNews (symbol : str)
| AlreadySeen (key : str)
| ArticleFailed (key : str)
| Published (symbol : str) (nt : NewsTick) (text : str)
| RenderRaised (symbol : str) (nt : NewsTick)
| PrintRaised (symbol : str) (nt : NewsTick)
| Telegram (text : str)
| SymbolFailed (symbol : str)
| Saved
| IterationFailed.

(** The mutable state a cycle works on: the shared [seen_ids] set, the
    local [req_id] counter and everything emitted so far. *)
Record state := {
  seen_ids : gset str;
  req_id : Z;
  trace : list event
}.

(** *** A state monad with exceptions

    A raised exception keeps the state: what was mutated before stays
    mutated. *)
Definition M (A : Type) : Type := state -> outcome A * state.

#[global] Instance M_ret : MRet M := fun A a s => (Returns a, s).

#[global] Instance M_bind : MBind M := fun A B k m s =>
  match m s with
  | (Returns a, s') => k a s'
  | (Raises e, s') => (Raises e, s')
  end.

(** [try: body except Exception: handler]: the handler takes over an
    [Exception]; any other exception goes on to the caller. *)
Definition try_except {A} (body handler : M A) : M A :=
  fun s => match body s with
           | (Raises Exception, s') => handler s'
           | r => r
           end.

(** A call that the surroundings answer with [r]. *)
Definition call {A} (r : outcome A) : M A := fun s => (r, s).

Definition emit (e : event) : M unit :=
  fun s => (Returns tt,
            {| seen_ids := seen_ids s; req_id := req_id s;
               trace := trace s ++ [e] |}).

Definition get_seen : M (gset str) := fun s => (Returns (seen_ids s), s).

(** [seen_ids.add(key)] *)
Definition add_seen (key : str) : M unit :=
  fun s => (Returns tt,
            {| seen_ids := {[ key ]} ∪ seen_ids s; req_id := req_id s;
               trace := trace s |}).

Definition get_req_id : M Z := fun s => (Returns (req_id s), s).

Definition set_req_id (n : Z) : M unit :=
  fun s => (Returns tt,
            {| seen_ids := seen_ids s; req_id := n; trace := trace s |}).

(** [for x in l: body(x)] *)
Fixpoint for_each {A} (l : list A) (body : A -> M unit) : M unit :=
  match l with
  | [] => mret tt
  | x :: l' => body x;; for_each l' body
  end.

(** [print(text); print()]: the block reaches the console, or the write
    raises. *)
Definition print (symbol : str) (nt : NewsTick) (text : str)
    (r : outcome unit) : M unit :=
  match r with
  | Returns _ => emit (Published symbol nt text)
  | Raises e => emit (PrintRaised symbol nt);; call (Raises e)
  end.

Definition EM_DASH : char := 8212%N.

(** [out_lines] as first built: the header, the headline and, when there
    is one, the extra line.  The header calls [short_time_ago], outside
    every [try] of the item loop: when that raises, so does the
    construction of the list. *)
Definition header_lines (clk : clock) (symbol : str) (nt : NewsTick)
  : outcome (list str) :=
  let ts := timeStamp nt in
  let headline := getattr (headline nt) [] in
  let extra := getattr (extraData nt) [] in
  let provider := getattr (providerCode nt) [] in
  match short_time_ago clk ts with
  | Raises e => Raises e
  | Returns ago =>
    let out_lines :=
      [ lit "=== " ++ symbol ++ lit " | " ++ provider ++ lit " | "
          ++ ago ++ lit " ===";
        lit "Headline: " ++ headline ] in
    Returns match extra with
            | [] => out_lines
            | _ => out_lines ++ [lit "Extra: " ++ extra]
            end
  end.

(** The statement [out_lines = [...]]: the list, or the exception of the
    header. *)
Definition format_block (symbol : str) (nt : NewsTick)
    (r : outcome (list str)) : M (list str) :=
  match r with
  | Returns out_lines => mret out_lines
  | Raises e => emit (RenderRaised symbol nt);; call (Raises e)
  end.

(** The lines appended [if article_body:]. *)
Definition body_lines (article_body : str) : list str :=
  match article_body with
  | [] => []
  | _ => [lit "--- Article body (truncated) ---"; take 2000 article_body]
  end.

(** The message handed to [post_to_telegram]; [ago] is what
    [short_time_ago(ts)] returned. *)
Definition telegram_text (symbol : str) (nt : NewsTick) (ago : str) : str :=
  symbol ++ lit " " ++ [EM_DASH] ++ lit " " ++ getattr (headline nt) []
    ++ [LF] ++ getattr (providerCode nt) [] ++ [LF] ++ ago.

(** [post_to_telegram(session, text)] with the bot configured: the
    message is handed to the transport; a bad status and an exception of
    the transport are logged inside, and the call returns. *)
Definition post_to_telegram (text : str) : M unit := emit (Telegram text).

(** The body of [for nt in news_ticks]. *)
Definition publish_tick (cfg : Config) (clk : clock) (symbol : str)
    (io : TickIO) : M unit :=
  let nt := tick io in
  let key := article_key nt in
  seen ← get_seen;
  if decide (key ∈ seen) then emit (AlreadySeen key)
  else
    out_lines ← format_block symbol nt (header_lines clk symbol nt);
    out_lines ←
      (if FETCH_ARTICLE_BODY cfg then
         try_except
           (article_body ← call (reqNewsArticle io);
            mret (out_lines ++ body_lines article_body))
           (emit (ArticleFailed key);; mret out_lines)
       else mret out_lines);
    let text := join [LF] out_lines in
    print symbol nt text (print_block io);;
    (if telegram cfg then
       try_except
         (ago ← call (short_time_ago clk (timeStamp nt));
          post_to_telegram (telegram_text symbol nt ago))
         (mret tt)
     else mret tt);;
    add_seen key.

Definition publish_ticks (cfg : Config) (clk : clock) (symbol : str)
    (news_ticks : list TickIO) : M unit :=
  for_each news_ticks (publish_tick cfg clk symbol).

(** The body of [for symbol, contract in contracts.items()], with its
    [try ... except Exception]. *)
Definition fetch_symbol (cfg : Config) (clk : clock) (ib : Gateway)
    (entry : str * Contract) : M unit :=
  let '(symbol, contract) := entry in
  try_except
    (qualified ←
       (if conId contract =? 0 then
          details ← call (qualifyContracts (ib symbol));
          mret (head details)
        else mret (Some contract));
     match qualified with
     | None => emit (Unqualified symbol)
     | Some contract =>
       n ← get_req_id;
       emit (Requested symbol n (conId contract));;
       news_ticks ← call (reqHistoricalNews (ib symbol));
       match news_ticks with
       | [] => emit (NoNews symbol);; set_req_id (n + 1)
       | _ => publish_ticks cfg clk symbol news_ticks;; set_req_id (n + 1)
       end
     end)
    (emit (SymbolFailed symbol)).

(** [fetch_and_publish_news(ib, contracts, seen_ids, session)];
    [contracts] are the items of the dict in order. *)
Definition fetch_and_publish_news (cfg : Config) (clk : clock) (ib : Gateway)
    (contracts : list (str * Contract)) : M unit :=
  set_req_id 1000;; for_each contracts (fetch_symbol cfg clk ib).

End Bot.

Import Bot.
(** ** The scheduler *)

Module Scheduler.

(** [d[k] = v] on the items of a dict: an existing key keeps its place. *)
Fixpoint dict_set {V} (k : str) (v : V) (d : list (str * V))
  : list (str * V) :=
  match d with
  | [] => [(k, v)]
  | (k', v') :: d' =>
    if decide (k = k') then (k, v) :: d' else (k', v') :: dict_set k v d'
  end.

(** What lives as long as [main_loop] runs: the seen set, the file behind
    it, the contracts dict and everything emitted so far. *)
Record process := {
  seen : gset str;
  path : storage;
  contracts : list (str * Contract);
  output : list event
}.

(** The surroundings during one turn of the [while True] loop: the clock,
    the gateway's answers to the qualification pass and to the cycle, and
    what the two sleeps do ([asyncio.sleep(POLL_SECONDS)] at the end of
    the turn, [asyncio.sleep(10)] in its handler). *)
Record CycleIO := {
  cycle_clock : clock;
  requalify : str -> outcome (list Contract);
  gateway : Gateway;
  sleep : outcome unit;
  sleep_retry : outcome unit
}.

(** The start of [main_loop]: [load_seen_ids] is called outside every
    [try], then the contracts are built from [TICKERS]. *)
Definition main_loop_start (file : storage) (TICKERS : list str)
  : outcome process :=
  match load_seen_ids file with
  | Raises e => Raises e
  | Returns seen_ids =>
    Returns {| seen := seen_ids; path := file;
               contracts :=
                 fold_left (fun d t => dict_set t {| conId := 0 |} d)
                           TICKERS [];
               output := [] |}
  end.

(** The qualification pass at the head of each turn, over the items the
    dict has when the pass starts.  An [Exception] of a call leaves the
    entry as it was; any other exception ends the pass where it is. *)
Fixpoint qualify_all (io : CycleIO) (d : list (str * Contract))
  : outcome unit * list (str * Contract) :=
  match d with
  | [] => (Returns tt, [])
  | (sym, contr) :: rest =>
    match requalify io sym with
    | Raises Interrupt => (Raises Interrupt, (sym, contr) :: rest)
    | Raises Exception | Returns [] =>
      let '(r, rest') := qualify_all io rest in (r, (sym, contr) :: rest')
    | Returns (c :: _) =>
      let '(r, rest') := qualify_all io rest in (r, (sym, c) :: rest')
    end
  end.

Definition cycle_start (p : process) : state :=
  {| seen_ids := seen p; req_id := 1000; trace := output p |}.

(** The process with one more event in its output. *)
Definition noted (p : process) (e : event) : process :=
  {| seen := seen p; path := path p; contracts := contracts p;
     output := output p ++ [e] |}.

(** The body of the [try] of a turn: qualify, fetch and publish, save,
    sleep; the first exception ends it. *)
Definition main_iteration_body (cfg : Config) (io : CycleIO) (p : process)
  : outcome unit * process :=
  let '(q, contracts') := qualify_all io (contracts p) in
  match q with
  | Raises e =>
    (Raises e, {| seen := seen p; path := path p; contracts := contracts';
                  output := output p |})
  | Returns _ =>
    let '(r, s) := fetch_and_publish_news cfg (cycle_clock io) (gateway io)
                     contracts' (cycle_start p) in
    match r with
    | Raises e =>
      (Raises e, {| seen := seen_ids s; path := path p;
                    contracts := contracts'; output := trace s |})
    | Returns _ =>
      let '(w, file) := save_seen_ids (path p) (seen_ids s) in
      let p' := {| seen := seen_ids s; path := file;
                   contracts := contracts'; output := trace s |} in
      match w with
      | Raises e => (Raises e, p')
      | Returns _ => (sleep io, noted p' Saved)
      end
    end
  end.

(** One turn of the loop, with its [except Exception]: the record in the
    log and the short sleep, which is outside every [try]. *)
Definition main_iteration (cfg : Config) (io : CycleIO) (p : process)
  : outcome unit * process :=
  match main_iteration_body cfg io p with
  | (Raises Exception, p') => (sleep_retry io, noted p' IterationFailed)
  | r => r
  end.

(** The first turns of [while True], one per element of [ios]; an
    exception that leaves a turn ends the loop. *)
Fixpoint main_loop (cfg : Config) (ios : list CycleIO) (p : process)
  : outcome unit * process :=
  match ios with
  | [] => (Returns tt, p)
  | io :: ios' =>
    match main_iteration cfg io p with
    | (Returns _, p') => main_loop cfg ios' p'
    | r => r
    end
  end.

End Scheduler.

Import Scheduler.

(** ** Reading a trace *)

(** The keys of the blocks that reached the console. *)
Definition published_key (e : event) : option str :=
  match e with
  | Published _ nt _ => Some (article_key nt)
  | _ => None
  end.

Definition published_keys (evs : list event) : list str :=
  omap published_key evs.

(** The seen set after an event, and after a run of events. *)
Definition record (seen0 : gset str) (e : event) : gset str :=
  match published_key e with
  | Some k => {[ k ]} ∪ seen0
  | None => seen0
  end.

Definition replay (seen0 : gset str) (evs : list event) : gset str :=
  fold_left record evs seen0.

(** An event fits a seen set when it is what the dedup test allows: a
    console write, done or failed, and a failed header only for a key that
    is not in the set, a skip only for one that is. *)
Definition allowed (seen0 : gset str) (e : event) : Prop :=
  match e with
  | Published _ nt _ | PrintRaised _ nt | RenderRaised _ nt =>
    article_key nt ∉ seen0
  | AlreadySeen k => k ∈ seen0
  | _ => True
  end.

Fixpoint consistent (seen0 : gset str) (evs : list event) : Prop :=
  match evs with
  | [] => True
  | e :: evs' => allowed seen0 e /\ consistent (record seen0 e) evs'
  end.

(** Events that neither touch nor test the seen set. *)
Definition quiet (e : event) : bool :=
  match e with
  | Published _ _ _ | PrintRaised _ _ | RenderRaised _ _ | AlreadySeen _ =>
    false
  | _ => true
  end.


(** What [publish_tick] logs before and after the console write, and the
    text it writes. *)
Definition article_log (cfg : Config) (io : TickIO) : list event :=
  if FETCH_ARTICLE_BODY cfg then
    match reqNewsArticle io with
    | Raises _ => [ArticleFailed (article_key (tick io))]
    | Returns _ => []
    end
  else [].

Definition telegram_log (cfg : Config) (clk : clock) (symbol : str)
    (nt : NewsTick) : list event :=
  if telegram cfg then
    match short_time_ago clk (timeStamp nt) with
    | Returns ago => [Telegram (telegram_text symbol nt ago)]
    | Raises _ => []
    end
  else [].

Definition article_lines (cfg : Config) (io : TickIO) : list str :=
  if FETCH_ARTICLE_BODY cfg then
    match reqNewsArticle io with
    | Returns article_body => body_lines article_body
    | Raises _ => []
    end
  else [].

Definition block_text (cfg : Config) (clk : clock) (symbol : str)
    (io : TickIO) : str :=
  match header_lines clk symbol (tick io) with
  | Returns out_lines => join [LF] (out_lines ++ article_lines cfg io)
  | Raises _ => []
  end.

(** Whether the article body request of a tick is interrupted. *)
Definition article_interrupted (cfg : Config) (io : TickIO) : bool :=
  FETCH_ARTICLE_BODY cfg
  && match reqNewsArticle io with Raises Interrupt => true | _ => false end.


(** The contract a symbol goes on with: its own when it has an id, else
    the first one [qualifyContracts] returns, if the call returns one. *)
Definition qualified_contract (ib : Gateway) (symbol : str) (c : Contract)
  : outcome (option Contract) :=
  if conId c =? 0 then
    match qualifyContracts (ib symbol) with
    | Raises e => Raises e
    | Returns details => Returns (head details)
    end
  else Returns (Some c).


(** A symbol none of whose calls is interrupted: whatever is raised while
    it is handled is an [Exception]. *)
Definition calm_tick (io : TickIO) : bool :=
  match reqNewsArticle io, print_block io with
  | Raises Interrupt, _ | _, Raises Interrupt => false
  | _, _ => true
  end.

Definition calm (ib : Gateway) (entry : str * Contract) : bool :=
  match qualifyContracts (ib entry.1), reqHistoricalNews (ib entry.1) with
  | Raises Interrupt, _ | _, Raises Interrupt => false
  | _, Raises Exception => true
  | _, Returns ticks => forallb calm_tick ticks
  end.

(** The ticks the gateway has for a symbol, and the keys it has for the
    contracts of a cycle. *)
Definition upstream_ticks (ib : Gateway) (symbol : str) : list TickIO :=
  match reqHistoricalNews (ib symbol) with
  | Returns ticks => ticks
  | Raises _ => []
  end.



Definition upstream_keys (ib : Gateway) (contracts : list (str * Contract))
  : list str :=
  concat (List.map (fun entry =>
                      List.map (fun io => article_key (tick io))
                               (upstream_ticks ib entry.1))
                   contracts).

(** A tick without provider code and article id. *)
Definition keyless (nt : NewsTick) : Prop :=
  (providerCode nt = None \/ providerCode nt = Some []) /\
  (articleId nt = None \/ articleId nt = Some []).

(** *** A small scenario: two symbols, one item *)

Definition AAPL : str := lit "AAPL".
Definition TSLA : str := lit "TSLA".

Definition tick_of (provider id head : string) : NewsTick :=
  {| providerCode := Some (lit provider); articleId := Some (lit id);
     headline := Some (lit head); timeStamp := None; extraData := None |}.

Definition good (nt : NewsTick) : TickIO :=
  {| tick := nt; reqNewsArticle := Returns []; print_block := Returns tt |}.

Definition failing (nt : NewsTick) : TickIO :=
  {| tick := nt; reqNewsArticle := Returns [];
     print_block := Raises Exception |}.

Definition serves (news : list (str * list TickIO)) : Gateway :=
  fun symbol =>
    {| qualifyContracts := Returns [];
       reqHistoricalNews :=
         match list_find (fun e => e.1 = symbol) news with
         | Some (_, (_, l)) => Returns l
         | None => Returns []
         end |}.

Definition plain : Config := {| FETCH_ARTICLE_BODY := true; telegram := false |}.

Definition two_contracts : list (str * Contract) :=
  [(AAPL, {| conId := 265598 |}); (TSLA, {| conId := 76792991 |})].

Definition fresh : state := {| seen_ids := ∅; req_id := 0; trace := [] |}.

Definition brn1 : NewsTick := tick_of "BRN" "1" "A".

(** ** Events of a run *)

(** A path that can be opened: no file yet, or a file with some content. *)
Definition openable (prior : option str) : storage :=
  match prior with None => Absent | Some content => File content end.

(** [tracks P m]: from every state, [m] only appends events, all of them
    in [P], that fit the seen set, and leaves the seen set they replay to. *)
Definition tracks {A} (P : event -> Prop) (m : M A) : Prop :=
  forall s, exists evs,
    trace (m s).2 = trace s ++ evs /\
    consistent (seen_ids s) evs /\
    seen_ids (m s).2 = replay (seen_ids s) evs /\
    Forall P evs.

(** Where a published tick comes from. *)
Definition from_ticks (symbol : str) (ticks : list TickIO) (e : event) : Prop :=
  match e with
  | Published sym nt _ => sym = symbol /\ exists io, io ∈ ticks /\ tick io = nt
  | _ => True
  end.

Definition from_gateway (ib : Gateway) (contracts : list (str * Contract))
    (e : event) : Prop :=
  match e with
  | Published sym nt _ =>
    exists c io, (sym, c) ∈ contracts /\ io ∈ upstream_ticks ib sym /\
                 tick io = nt
  | _ => True
  end.

(** What a run appended to the trace. *)
Definition new_events (before after : list event) : list event :=
  drop (length before) after.

Definition cycle_events (cfg : Config) (clk : clock) (ib : Gateway)
    (contracts : list (str * Contract)) (s : state) : list event :=
  new_events (trace s)
             (trace (fetch_and_publish_news cfg clk ib contracts s).2).

(** The loop over the contracts, as the state it leaves. *)
Definition run_symbols (cfg : Config) (clk : clock) (ib : Gateway)
    (contracts : list (str * Contract)) (s : state) : state :=
  (for_each contracts (fetch_symbol cfg clk ib) s).2.

Definition iteration_events (cfg : Config) (io : CycleIO) (p : process)
  : list event :=
  new_events (output p) (output (main_iteration cfg io p).2).

Definition lifetime_events (cfg : Config) (ios : list CycleIO) (p : process)
  : list event :=
  new_events (output p) (output (main_loop cfg ios p).2).

(** *** Further scenario pieces *)

(** A clock on UTC whose last reading was 1_700_000_000.5 s after the epoch. *)
Definition utc_1700000000 : clock := fixed_offset_clock 0 1700000000500000.

Definition BRN_1 : str := lit "BRN:1".
Definition BRN_2 : str := lit "BRN:2".


Definition brn2 : NewsTick := tick_of "BRN" "2" "B".

Definition turn (ib : Gateway) : CycleIO :=
  {| cycle_clock := utc_1700000000;
     requalify := fun _ => Returns [];
     gateway := ib;
     sleep := Returns tt;
     sleep_retry := Returns tt |}.

Definition started (ids : gset str) : process :=
  {| seen := ids; path := Absent; contracts := two_contracts; output := [] |}.

Definition text_of (symbol head : string) : str :=
  lit "=== " ++ lit symbol ++ lit " | BRN | unknown time ===" ++ [LF]
    ++ lit "Headline: " ++ lit head.

Definition anonymous (head : string) : NewsTick :=
  {| providerCode := None; articleId := Some []; headline := Some (lit head);
     timeStamp := None; extraData := None |}.


(** ** Configuration *)

Module Settings.

(** [s.split(sep)] for a separator of one character: the pieces between
    the separators, empty ones included. *)
Fixpoint split (sep : char) (s : str) : list str :=
  match s with
  | [] => [[]]
  | c :: s' =>
    if (c =? sep)%N then [] :: split sep s'
    else match split sep s' with
         | [] => [[c]]
         | piece :: pieces => (c :: piece) :: pieces
         end
  end.

Definition COMMA : char := 44%N.

(** [os.getenv(name, default)]: [None] is the unset variable. *)
Definition getenv (value : option str) (default : str) : str :=
  match value with Some v => v | None => default end.

(** [TICKERS]:
    [[t.strip() for t in os.getenv("IB_TICKERS", "AAPL,TSLA,SPY").split(",")
      if t.strip()]]. *)
Definition TICKERS (IB_TICKERS : option str) : list str :=
  List.map strip
    (List.filter (fun t => negb (bool_decide (strip t = [])))
       (split COMMA (getenv IB_TICKERS (lit "AAPL,TSLA,SPY")))).

(** A ticker as the parsing leaves it: not empty, no white space at
    either end, no comma. *)
Definition bare (t : str) : Prop :=
  t <> [] /\ strip t = t /\ COMMA ∉ t.

End Settings.

Import Settings.

(** ** More ways to read a trace *)

(** How a line of the seen-id file may end. *)
Inductive line_end : Type := EndLF | EndCRLF | EndCR.

Definition line_end_text (e : line_end) : str :=
  match e with
  | EndLF => [LF]
  | EndCRLF => [CR; LF]
  | EndCR => [CR]
  end.

(** The text of a file that holds the given keys, each with its own line
    end. *)
Fixpoint lines_text (lines : list (str * line_end)) : str :=
  match lines with
  | [] => []
  | (k, e) :: rest => k ++ line_end_text e ++ lines_text rest
  end.

(** The numbers of chat messages and of console blocks in a trace. *)
Definition is_telegram (e : event) : bool :=
  match e with Telegram _ => true | _ => false end.

Definition telegram_count (evs : list event) : nat :=
  length (List.filter is_telegram evs).

Definition published_count (evs : list event) : nat :=
  length (published_keys evs).

(** [appends Q m]: from every state, [m] only appends events, and what
    it appends is in [Q]. *)
Definition appends {A} (Q : list event -> Prop) (m : M A) : Prop :=
  forall s, exists evs, trace (m s).2 = trace s ++ evs /\ Q evs.

(** The events of the symbol loop proper, the item loop left out. *)
Definition symbol_event (e : event) : bool :=
  match e with
  | Requested _ _ _ | Unqualified _ | NoNews _ | SymbolFailed _ => true
  | _ => false
  end.

(** The request ids of a trace lie in a range. *)
Definition requests_within (lo hi : Z) (evs : list event) : Prop :=
  Forall (fun e => match e with
                   | Requested _ n _ => lo <= n < hi
                   | _ => True
                   end) evs.

(** The process with another file behind the seen set. *)
Definition with_path (file : storage) (p : process) : process :=
  {| seen := seen p; path := file; contracts := contracts p;
     output := output p |}.

(** Whether a news request for a symbol can come out of a contracts
    entry: with the contract id of the entry when it has one, else with
    the one of the first contract the qualification returned. *)
Definition request_of (ib : Gateway) (contracts : list (str * Contract))
    (e : event) : Prop :=
  match e with
  | Requested sym _ cid =>
    exists c, (sym, c) ∈ contracts /\
      ((conId c <> 0 /\ cid = conId c) \/
       (conId c = 0 /\
        exists c' rest, qualifyContracts (ib sym) = Returns (c' :: rest) /\
                        cid = conId c'))
  | _ => True
  end.

(** The chat messages of a trace are as many as its console blocks when
    the bot is configured, and none otherwise. *)
Definition telegram_paired (cfg : Config) (evs : list event) : Prop :=
  telegram_count evs
  = if telegram cfg then published_count evs else 0%nat.

Definition is_request (e : event) : bool :=
  match e with Requested _ _ _ => true | _ => false end.

(** The state with one more event, and with another request id. *)
Definition logged (s : state) (e : event) : state :=
  {| seen_ids := seen_ids s; req_id := req_id s; trace := trace s ++ [e] |}.

Definition with_req_id (n : Z) (s : state) : state :=
  {| seen_ids := seen_ids s; req_id := n; trace := trace s |}.

(** The events of the scheduler itself. *)
Definition turn_event (e : event) : bool :=
  match e with Saved | IterationFailed => true | _ => false end.

(** *** Fetch order *)

(** What a cycle is served, in the order it is served: for each contracts
    entry in turn, the ticks of its symbol. *)
Definition fetched (ib : Gateway) (contracts : list (str * Contract))
  : list (str * TickIO) :=
  concat (List.map (fun entry =>
                      List.map (fun io => (entry.1, io))
                               (upstream_ticks ib entry.1))
                   contracts).

(** The keys of a run of served ticks. *)
Definition served_keys (served : list (str * TickIO)) : list str :=
  List.map (fun p => article_key (tick p.2)) served.


(** The console blocks of a trace, in order, and the block of a served
    tick. *)
Definition published_block (e : event) : option (str * NewsTick * str) :=
  match e with
  | Published symbol nt text => Some (symbol, nt, text)
  | _ => None
  end.

Definition published_blocks (evs : list event)
  : list (str * NewsTick * str) :=
  omap published_block evs.


(** The tick of a publication that failed: its header or its console
    write raised. *)
Definition publish_failure (e : event) : option NewsTick :=
  match e with
  | RenderRaised _ nt | PrintRaised _ nt => Some nt
  | _ => None
  end.

(** *** A zone with a change of offset *)

(** A zone that is two hours ahead of UTC until the instant [change] and
    one hour ahead from then on. *)
Definition falls_back_at (change t_us : Z) : clock :=
  {| time_us := t_us;
     utcoffset := fun t => if t <? change then 7200 else 3600 |}.

(** A tick with a timestamp. *)
Definition stamped (nt : NewsTick) (ts : Z) : NewsTick :=
  {| providerCode := providerCode nt; articleId := articleId nt;
     headline := headline nt; timeStamp := Some ts;
     extraData := extraData nt |}.

(** * Properties *)

(** ** Scenarios *)

Example short_time_ago_30s :
  short_time_ago utc_1700000000 (Some 1699999970) = Returns (lit "30s ago").
Proof. vm_compute. reflexivity. Qed.

Example short_time_ago_2h :
  short_time_ago utc_1700000000 (Some (1700000000 - 7200))
  = Returns (lit "2h ago").
Proof. vm_compute. reflexivity. Qed.

Example short_time_ago_5m :
  short_time_ago utc_1700000000 (Some (1700000000 - 300))
  = Returns (lit "5m ago").
Proof. vm_compute. reflexivity. Qed.

Example short_time_ago_old :
  short_time_ago utc_1700000000 (Some 1600000000)
  = Returns (lit "2020-09-13 12:26:40").
Proof. vm_compute. reflexivity. Qed.

Example short_time_ago_ahead_30s :
  short_time_ago utc_1700000000 (Some 1700000031) = Returns (lit "-30s ago").
Proof. vm_compute. reflexivity. Qed.

(** The first day of the year 1 does not convert: the conversion looks a
    day back. *)
Example short_time_ago_first_day :
  short_time_ago utc_1700000000 (Some (-62135596800 + 86399))
  = Raises Exception /\
  short_time_ago utc_1700000000 (Some (-62135596800 + 86400))
  = Returns (lit "0001-01-02 00:00:00").
Proof. vm_compute. split; reflexivity. Qed.

(** A timestamp in milliseconds names a year far beyond 9999. *)
Example short_time_ago_milliseconds :
  short_time_ago utc_1700000000 (Some 1700000000000) = Raises Exception.
Proof. vm_compute. reflexivity. Qed.

(** 17_179_869_193.999999 s ahead: the nearest double is the next whole
    number. *)
Example int_total_seconds_rounds_up :
  int_total_seconds (- 17179869193999999) = - 17179869194.
Proof. vm_compute. reflexivity. Qed.

Example save_two_keys :
  save_seen_ids Absent {[ BRN_2; BRN_1 ]}
  = (Returns tt, File (lit "BRN:1" ++ [LF] ++ lit "BRN:2" ++ [LF])).
Proof. vm_compute. reflexivity. Qed.

Example load_two_keys :
  load_seen_ids (File (lit "BRN:2" ++ [CR; LF; LF] ++ lit "  BRN:1 "))
  = Returns {[ BRN_1; BRN_2 ]}.
Proof. vm_compute. reflexivity. Qed.

Example scenario_one_item :
  let r := fetch_and_publish_news plain utc_1700000000
             (serves [(AAPL, [good brn1])]) two_contracts fresh in
  r.1 = Returns tt /\
  seen_ids r.2 = {[ BRN_1 ]} /\
  trace r.2 = [ Requested AAPL 1000 265598;
                Published AAPL brn1
                  (lit "=== AAPL | BRN | unknown time ===" ++ [LF]
                     ++ lit "Headline: A");
                Requested TSLA 1001 76792991;
                NoNews TSLA ].
Proof. vm_compute. repeat split; reflexivity. Qed.

(** A tick whose timestamp cannot be converted: the header raises before
    anything is written, the handler of the symbol logs it, and the key is
    not marked. *)
Example scenario_unconvertible_timestamp :
  let r := fetch_and_publish_news plain utc_1700000000
             (serves [(AAPL, [good (stamped brn1 1700000000000)])])
             two_contracts fresh in
  r.1 = Returns tt /\
  seen_ids r.2 = ∅ /\
  trace r.2 = [ Requested AAPL 1000 265598;
                RenderRaised AAPL (stamped brn1 1700000000000);
                SymbolFailed AAPL;
                Requested TSLA 1000 76792991;
                NoNews TSLA ].
Proof. vm_compute. repeat split; reflexivity. Qed.

(** An interrupt while the news of AAPL is awaited: no handler takes it,
    the cycle, the turn and the loop end there, and nothing is saved. *)
Example scenario_interrupted :
  let ib := fun symbol =>
              {| qualifyContracts := Returns [];
                 reqHistoricalNews :=
                   if decide (symbol = AAPL) then Raises Interrupt
                   else Returns [good brn1] |} in
  main_loop plain [turn ib; turn ib] (started ∅)
  = (Raises Interrupt,
     {| seen := ∅; path := Absent; contracts := two_contracts;
        output := [Requested AAPL 1000 265598] |}).
Proof. vm_compute. reflexivity. Qed.

(** ** The double behind [int(diff.total_seconds())] *)

Lemma round_half_even_near (n d : Z) :
  0 < d ->
  2 * n - d <= 2 * (d * round_half_even n d) <= 2 * n + d.
Proof.
  intros Hd. unfold round_half_even.
  pose proof (Z.div_mod n d ltac:(lia)) as Hdm.
  pose proof (Z.mod_pos_bound n d Hd) as Hr.
  set (q := n / d) in *. set (r := n mod d) in *.
  destruct (Z.ltb_spec (2 * r) d); [lia|].
  destruct (Z.ltb_spec d (2 * r)); [lia|].
  destruct (Z.even q); lia.
Qed.

(** The significand, scaled back and truncated, is the whole quotient or
    the next number, and the whole quotient when the scale is fine
    enough. *)
Lemma scaled_round_near (a P : Z) :
  0 <= a -> 0 < P ->
  let m := round_half_even (a * P) 1000000 in
  a / 1000000 <= m / P <= a / 1000000 + 1 /\
  (1000000 < 2 * P -> m / P = a / 1000000).
Proof.
  intros Ha HP m.
  pose proof (round_half_even_near (a * P) 1000000 ltac:(lia)) as Hm.
  fold m in Hm.
  pose proof (Z.div_mod a 1000000 ltac:(lia)) as Hdm.
  pose proof (Z.mod_pos_bound a 1000000 ltac:(lia)) as Hr.
  set (q := a / 1000000) in *. set (r := a mod 1000000) in *.
  assert (HaP : a * P = 1000000 * (q * P) + r * P) by (rewrite Hdm; ring).
  assert (HY : 0 <= r * P <= 999999 * P).
  { split; [apply Z.mul_nonneg_nonneg; lia|].
    apply Z.mul_le_mono_nonneg_r; lia. }
  assert (Hlo : q * P <= m) by lia.
  assert (Hhi : m <= q * P + P) by lia.
  split; [split|].
  - apply Z.div_le_lower_bound; lia.
  - apply Z.lt_succ_r, Z.div_lt_upper_bound; lia.
  - intros Hfine. symmetry. apply (Z.div_unique m P q (m - q * P)); lia.
Qed.

Lemma binade_below (a d k : Z) :
  0 < a -> 0 < d -> 0 <= k -> a < 2 ^ k * d -> binade a d < k.
Proof.
  intros Ha Hd Hk Hlt. unfold binade.
  destruct (Z.leb_spec d a) as [Hle|Hgt].
  - assert (Hq : 0 < a / d) by (apply Z.div_str_pos; lia).
    apply Z.log2_lt_pow2; [exact Hq|].
    apply Z.div_lt_upper_bound; lia.
  - pose proof (Z.log2_up_nonneg ((d + a - 1) / a)) as Hn.
    assert (H2 : 2 <= (d + a - 1) / a) by (apply Z.div_le_lower_bound; lia).
    assert (0 < Z.log2_up ((d + a - 1) / a))
      by (apply Z.log2_up_pos; lia).
    lia.
Qed.

Lemma int_true_divide_near (a : Z) :
  0 <= a < 2 ^ 53 * 1000000 ->
  a / 1000000 <= int_true_divide a 1000000 <= a / 1000000 + 1.
Proof.
  intros Ha. unfold int_true_divide.
  destruct (Z.eqb_spec a 0) as [->|Hne]; [vm_compute; split; discriminate|].
  pose proof (binade_below a 1000000 53 ltac:(lia) ltac:(lia) ltac:(lia)
                ltac:(lia)) as Hb.
  cbv zeta. destruct (Z.leb_spec 0 (52 - binade a 1000000)); [|lia].
  apply scaled_round_near; [lia|]. apply Z.pow_pos_nonneg; lia.
Qed.

Lemma int_true_divide_exact (a : Z) :
  0 <= a < 2 ^ 34 * 1000000 ->
  int_true_divide a 1000000 = a / 1000000.
Proof.
  intros Ha. unfold int_true_divide.
  destruct (Z.eqb_spec a 0) as [->|Hne]; [reflexivity|].
  pose proof (binade_below a 1000000 34 ltac:(lia) ltac:(lia) ltac:(lia)
                ltac:(lia)) as Hb.
  cbv zeta. destruct (Z.leb_spec 0 (52 - binade a 1000000)); [|lia].
  apply scaled_round_near; [lia|apply Z.pow_pos_nonneg; lia|].
  assert (2 ^ 19 <= 2 ^ (52 - binade a 1000000))
    by (apply Z.pow_le_mono_r; lia).
  change (2 ^ 19) with 524288 in *. lia.
Qed.

(** Up to 2^34 seconds either way, the number of seconds is the exact
    quotient, truncated toward zero. *)
Lemma int_total_seconds_exact (diff : timedelta) :
  Z.abs diff < 2 ^ 34 * 1000000 ->
  int_total_seconds diff = Z.quot diff 1000000.
Proof.
  intros Hd. unfold int_total_seconds.
  destruct (Z.lt_trichotomy diff 0) as [Hneg|[->|Hpos]].
  - rewrite Z.sgn_neg, Z.abs_neq by lia.
    rewrite int_true_divide_exact by lia.
    assert (Hq : Z.quot diff 1000000 = - (- diff / 1000000)).
    { replace diff with (- (- diff)) at 1 by lia.
      rewrite Z.quot_opp_l, Z.quot_div_nonneg by lia. reflexivity. }
    rewrite Hq. lia.
  - reflexivity.
  - rewrite Z.sgn_pos, Z.abs_eq by lia.
    rewrite int_true_divide_exact by lia.
    rewrite Z.quot_div_nonneg by lia. lia.
Qed.

(** Beyond, it is that quotient or the next number away from zero. *)
Lemma int_total_seconds_near (diff : timedelta) :
  Z.abs diff < 2 ^ 53 * 1000000 ->
  let q := Z.quot diff 1000000 in
  let s := int_total_seconds diff in
  (0 <= diff -> q <= s <= q + 1) /\ (diff <= 0 -> q - 1 <= s <= q).
Proof.
  intros Hd q s. unfold q, s, int_total_seconds.
  destruct (Z.lt_trichotomy diff 0) as [Hneg|[->|Hpos]].
  - rewrite Z.sgn_neg, Z.abs_neq by lia.
    pose proof (int_true_divide_near (- diff) ltac:(lia)) as Hn.
    assert (Hq : Z.quot diff 1000000 = - (- diff / 1000000)).
    { replace diff with (- (- diff)) at 1 by lia.
      rewrite Z.quot_opp_l, Z.quot_div_nonneg by lia. reflexivity. }
    rewrite Hq. lia.
  - vm_compute. repeat split; discriminate.
  - rewrite Z.sgn_pos, Z.abs_eq by lia.
    pose proof (int_true_divide_near diff ltac:(lia)) as Hn.
    rewrite Z.quot_div_nonneg by lia. lia.
Qed.

(** What the clock returns is a datetime of Python. *)
Lemma year_in_range_spec (secs : Z) :
  year_in_range secs = true <-> -62135596800 <= secs < 253402300800.
Proof.
  unfold year_in_range. rewrite andb_true_iff, Z.leb_le, Z.ltb_lt.
  reflexivity.
Qed.

Lemma local_datetime_range (clk : clock) (us : Z) (dt : datetime) :
  local_datetime clk us = Returns dt ->
  datetime_range dt /\ dt = us + utcoffset clk (us / 1000000) * 1000000 /\
  converts clk (us / 1000000) = true.
Proof.
  unfold local_datetime. cbv zeta.
  destruct (converts clk (us / 1000000)) eqn:Hc; [|discriminate].
  intros Heq. inversion Heq; subst. split; [|auto].
  unfold converts in Hc. cbv zeta in Hc.
  apply andb_true_iff in Hc as [Hc _]. apply andb_true_iff in Hc as [Hc _].
  apply year_in_range_spec in Hc. unfold local_seconds in Hc.
  pose proof (Z.div_mod us 1000000 ltac:(lia)).
  pose proof (Z.mod_pos_bound us 1000000 ltac:(lia)).
  unfold datetime_range. lia.
Qed.

Lemma local_datetime_raises (clk : clock) (us : Z) (e : exn) :
  local_datetime clk us = Raises e ->
  e = Exception /\ converts clk (us / 1000000) = false.
Proof.
  unfold local_datetime. cbv zeta.
  destruct (converts clk (us / 1000000)); [discriminate|].
  intros Heq. inversion Heq. auto.
Qed.

(** In a zone with a fixed offset a second converts when its local time
    is at least a day into the year 1 and before the end of 9999. *)
Lemma converts_fixed_offset (offset t_us t : Z) :
  converts (fixed_offset_clock offset t_us) t = true <->
  -62135596800 + 86400 <= t + offset < 253402300800.
Proof.
  unfold converts, local_seconds. cbn [utcoffset fixed_offset_clock].
  cbv zeta.
  replace (t + offset - (t - 86400 + offset) - 86400) with 0 by lia.
  rewrite orb_true_l, andb_true_r, andb_true_iff, !year_in_range_spec. lia.
Qed.

(** Between two datetimes the seconds [short_time_ago] computes are the
    truncated quotient or the next number away from zero; they are on the
    same side of each threshold as the quotient. *)
Lemma seconds_between (current dt : datetime) :
  datetime_range current -> datetime_range dt ->
  let q := Z.quot (current - dt) 1000000 in
  let s := int_total_seconds (current - dt) in
  (q - 1 <= s <= q + 1) /\
  (Z.abs (current - dt) < 2 ^ 34 * 1000000 -> s = q) /\
  (s < 60 <-> q < 60) /\ (s < 3600 <-> q < 3600) /\
  (s < 86400 <-> q < 86400) /\
  (60 <= q < 86400 -> s = q) /\
  (current <= dt -> q - 1 <= s <= q /\ s <= 0).
Proof.
  intros Hc Hd q s. unfold datetime_range in Hc, Hd.
  change (2 ^ 34) with 17179869184.
  assert (Hbig : Z.abs (current - dt) < 2 ^ 53 * 1000000)
    by (change (2 ^ 53) with 9007199254740992; lia).
  destruct (int_total_seconds_near _ Hbig) as [Hpos Hneg].
  fold q s in Hpos, Hneg.
  pose proof (int_total_seconds_exact (current - dt)) as Hex. fold q s in Hex.
  change (2 ^ 34) with 17179869184 in Hex.
  destruct (Z_lt_le_dec (Z.abs (current - dt)) (17179869184 * 1000000))
    as [Hsmall|Hlarge].
  - specialize (Hex Hsmall). rewrite Hex.
    assert (Hsign : current <= dt -> q <= 0).
    { intros Hle. unfold q. apply Z.quot_le_upper_bound; lia. }
    repeat split; try lia.
  - destruct (Z_lt_le_dec (current - dt) 0) as [Hn|Hp].
    + specialize (Hneg ltac:(lia)).
      assert (q <= 0) by (unfold q; apply Z.quot_le_upper_bound; lia).
      repeat split; try lia.
    + specialize (Hpos Hp).
      assert (17179869184 <= q).
      { unfold q. rewrite Z.quot_div_nonneg by lia.
        apply Z.div_le_lower_bound; lia. }
      repeat split; try lia.
Qed.

Lemma of_int_negative (s : Z) :
  s < 0 -> exists digits, of_int s = 45%N :: digits.
Proof.
  destruct s as [|p|p]; try lia. intros _.
  unfold of_int. simpl. eexists. reflexivity.
Qed.

Lemma ago_is_not_unknown (digits : str) :
  digits ++ lit "s ago" <> lit "unknown time".
Proof.
  intros Heq. apply (f_equal (@last N)) in Heq.
  rewrite last_app in Heq. vm_compute in Heq. discriminate.
Qed.

(** ** The ISO rendering *)

Lemma all_from_spec (f : Z -> bool) (fuel : nat) (z0 : Z) :
  all_from f fuel z0 = true ->
  forall z, z0 <= z < z0 + Z.of_nat fuel -> f z = true.
Proof.
  revert z0. induction fuel as [|fuel IH]; intros z0 Hall z Hz; [lia|].
  simpl in Hall. apply andb_true_iff in Hall as [Hz0 Hrest].
  destruct (Z.eq_dec z z0) as [->|Hne]; [exact Hz0|].
  apply (IH (z0 + 1) Hrest). lia.
Qed.

Lemma zero_pad_2 (n : Z) :
  0 <= n < 100 ->
  exists a b, zero_pad 2 n = [a; b] /\ is_digit a = true /\ is_digit b = true
              /\ digits_value [a; b] = n.
Proof.
  intros Hn.
  assert (Hp : pads_to 2 n = true).
  { apply (all_from_spec (pads_to 2) (Z.to_nat 100) 0);
      [vm_compute; reflexivity|lia]. }
  unfold pads_to in Hp. apply andb_true_iff in Hp as [Hp Hval].
  apply andb_true_iff in Hp as [Hlen Hdig].
  apply Nat.eqb_eq in Hlen. apply Z.eqb_eq in Hval.
  destruct (zero_pad 2 n) as [|a [|b [|c l]]]; try discriminate.
  simpl in Hdig. exists a, b.
  apply andb_true_iff in Hdig as [Ha Hdig].
  apply andb_true_iff in Hdig as [Hb _]. auto.
Qed.

Lemma zero_pad_4 (n : Z) :
  0 <= n < 10000 ->
  exists a b c d, zero_pad 4 n = [a; b; c; d] /\
    is_digit a = true /\ is_digit b = true /\
    is_digit c = true /\ is_digit d = true /\
    digits_value [a; b; c; d] = n.
Proof.
  intros Hn.
  assert (Hp : pads_to 4 n = true).
  { apply (all_from_spec (pads_to 4) (Z.to_nat 10000) 0);
      [vm_compute; reflexivity|lia]. }
  unfold pads_to in Hp. apply andb_true_iff in Hp as [Hp Hval].
  apply andb_true_iff in Hp as [Hlen Hdig].
  apply Nat.eqb_eq in Hlen. apply Z.eqb_eq in Hval.
  destruct (zero_pad 4 n) as [|a [|b [|c [|d [|e l]]]]]; try discriminate.
  simpl in Hdig. exists a, b, c, d.
  repeat (apply andb_true_iff in Hdig as [? Hdig]). auto 6.
Qed.

Lemma era_day_bounds (doe : Z) :
  0 <= doe < 146097 -> era_day_ok doe = true.
Proof.
  intros Hd.
  apply (all_from_spec era_day_ok (Z.to_nat 146097) 0);
    [vm_compute; reflexivity|lia].
Qed.

(** A whole number of 400-year eras is a whole number of 146097 days. *)
Lemma days_from_civil_era (y m d era : Z) :
  days_from_civil (y + era * 400) m d = days_from_civil y m d + era * 146097.
Proof.
  assert (Hshift : forall y',
    (y' + era * 400) / 400 * 146097
    + ((y' + era * 400 - (y' + era * 400) / 400 * 400) * 365
       + (y' + era * 400 - (y' + era * 400) / 400 * 400) / 4
       - (y' + era * 400 - (y' + era * 400) / 400 * 400) / 100)
    = y' / 400 * 146097
      + ((y' - y' / 400 * 400) * 365 + (y' - y' / 400 * 400) / 4
         - (y' - y' / 400 * 400) / 100)
      + era * 146097).
  { intros y'. rewrite Z.div_add by lia.
    replace (y' + era * 400 - (y' / 400 + era) * 400)
      with (y' - y' / 400 * 400) by lia.
    lia. }
  unfold days_from_civil. cbv zeta.
  destruct (Z.leb_spec m 2).
  - replace (y + era * 400 - 1) with (y - 1 + era * 400) by lia.
    pose proof (Hshift (y - 1)). lia.
  - pose proof (Hshift y). lia.
Qed.

Lemma civil_from_days_range (days : Z) :
  -719162 <= days <= 2932896 ->
  let '(y, m, d) := civil_from_days days in
  1 <= y <= 9999 /\ 1 <= m <= 12 /\ 1 <= d <= 31 /\
  days_from_civil y m d = days.
Proof.
  intros Hdays. unfold civil_from_days. cbv zeta.
  set (z := days + 719468).
  assert (Hz : 306 <= z <= 3652364) by (unfold z; lia).
  pose proof (Z.div_mod z 146097 ltac:(lia)) as Hdm.
  pose proof (Z.mod_pos_bound z 146097 ltac:(lia)) as Hmod.
  assert (Hera : 0 <= z / 146097 <= 24).
  { split; [apply Z.div_pos; lia|].
    apply Z.lt_succ_r, Z.div_lt_upper_bound; lia. }
  set (era := z / 146097) in *.
  assert (Hdoe : z - era * 146097 = z mod 146097) by lia.
  rewrite Hdoe.
  pose proof (era_day_bounds (z mod 146097) Hmod) as Hok.
  unfold era_day_ok in Hok.
  destruct (civil_of_era_day (z mod 146097)) as [[y m] d].
  rewrite days_from_civil_era.
  repeat (apply andb_true_iff in Hok as [Hok ?]).
  repeat match goal with
         | H : (_ <=? _) = true |- _ => apply Z.leb_le in H
         | H : (_ =? _) = true |- _ => apply Z.eqb_eq in H
         | H : (_ || _) = true |- _ => apply orb_true_iff in H
         end.
  rewrite !Z.ltb_lt, !Z.leb_le in *. lia.
Qed.

(** Within the datetimes of Python the ISO rendering is nineteen
    characters, digits around the separators, and the digits spell the
    date and the time of day of the datetime's second. *)
Lemma isoformat_seconds_parts (dt : datetime) :
  datetime_range dt ->
  let secs := dt / 1000000 in
  exists y1 y2 y3 y4 m1 m2 a1 a2 h1 h2 n1 n2 s1 s2,
    isoformat_seconds dt
    = [y1; y2; y3; y4; 45; m1; m2; 45; a1; a2; 32; h1; h2; 58; n1; n2; 58;
       s1; s2]%N /\
    forallb is_digit [y1; y2; y3; y4; m1; m2; a1; a2; h1; h2; n1; n2; s1; s2]
    = true /\
    days_from_civil (digits_value [y1; y2; y3; y4]) (digits_value [m1; m2])
                    (digits_value [a1; a2]) = secs / 86400 /\
    digits_value [h1; h2] = secs mod 86400 / 3600 /\
    digits_value [n1; n2] = secs mod 86400 mod 3600 / 60 /\
    digits_value [s1; s2] = secs mod 86400 mod 60.
Proof.
  unfold datetime_range. intros Hdt. cbv zeta. unfold isoformat_seconds.
  cbv zeta. set (secs := dt / 1000000).
  assert (Hsecs : -62135596800 <= secs < 253402300800).
  { unfold secs. split.
    - apply Z.div_le_lower_bound; lia.
    - apply Z.div_lt_upper_bound; lia. }
  assert (Hdays : -719162 <= secs / 86400 <= 2932896).
  { split.
    - apply Z.div_le_lower_bound; lia.
    - apply Z.lt_succ_r, Z.div_lt_upper_bound; lia. }
  pose proof (civil_from_days_range _ Hdays) as Hciv.
  destruct (civil_from_days (secs / 86400)) as [[y m] d].
  destruct Hciv as (Hy & Hm & Hd & Hback).
  pose proof (Z.mod_pos_bound secs 86400 ltac:(lia)) as Hsod.
  set (sod := secs mod 86400) in *.
  assert (Hh : 0 <= sod / 3600 < 100).
  { split; [apply Z.div_pos; lia|apply Z.div_lt_upper_bound; lia]. }
  assert (Hmi : 0 <= sod mod 3600 / 60 < 100).
  { pose proof (Z.mod_pos_bound sod 3600 ltac:(lia)).
    split; [apply Z.div_pos; lia|apply Z.div_lt_upper_bound; lia]. }
  assert (Hse : 0 <= sod mod 60 < 100).
  { pose proof (Z.mod_pos_bound sod 60 ltac:(lia)). lia. }
  destruct (zero_pad_4 y ltac:(lia))
    as (y1 & y2 & y3 & y4 & -> & Hy1 & Hy2 & Hy3 & Hy4 & Hyv).
  destruct (zero_pad_2 m ltac:(lia)) as (m1 & m2 & -> & Hm1 & Hm2 & Hmv).
  destruct (zero_pad_2 d ltac:(lia)) as (d1 & d2 & -> & Hd1 & Hd2 & Hdv).
  destruct (zero_pad_2 _ Hh) as (h1 & h2 & -> & Hh1 & Hh2 & Hhv).
  destruct (zero_pad_2 _ Hmi) as (n1 & n2 & -> & Hn1 & Hn2 & Hnv).
  destruct (zero_pad_2 _ Hse) as (s1 & s2 & -> & Hs1 & Hs2 & Hsv).
  exists y1, y2, y3, y4, m1, m2, d1, d2, h1, h2, n1, n2, s1, s2.
  split; [reflexivity|]. split.
  { cbn [forallb]. rewrite Hy1, Hy2, Hy3, Hy4, Hm1, Hm2, Hd1, Hd2, Hh1, Hh2,
      Hn1, Hn2, Hs1, Hs2. reflexivity. }
  rewrite Hyv, Hmv, Hdv. auto.
Qed.

Lemma isoformat_seconds_shape (dt : datetime) :
  datetime_range dt -> iso_shape (isoformat_seconds dt) = true.
Proof.
  intros Hdt.
  destruct (isoformat_seconds_parts dt Hdt)
    as (y1 & y2 & y3 & y4 & m1 & m2 & a1 & a2 & h1 & h2 & n1 & n2 & s1 & s2
        & -> & Hdig & _).
  unfold iso_shape. rewrite Hdig. reflexivity.
Qed.

(** Read back, the ISO rendering gives the second of the datetime. *)
Lemma isoformat_seconds_reads_back (dt : datetime) :
  datetime_range dt ->
  iso_seconds (isoformat_seconds dt) = Some (dt / 1000000).
Proof.
  intros Hdt. pose proof (isoformat_seconds_shape dt Hdt) as Hshape.
  destruct (isoformat_seconds_parts dt Hdt)
    as (y1 & y2 & y3 & y4 & m1 & m2 & a1 & a2 & h1 & h2 & n1 & n2 & s1 & s2
        & Hiso & _ & Hday & Hh & Hn & Hs).
  rewrite Hiso in *. unfold iso_seconds. rewrite Hshape.
  rewrite Hday, Hh, Hn, Hs. f_equal.
  set (secs := dt / 1000000).
  pose proof (Z.div_mod secs 86400 ltac:(lia)).
  pose proof (Z.div_mod (secs mod 86400) 3600 ltac:(lia)).
  pose proof (Z.div_mod (secs mod 86400 mod 3600) 60 ltac:(lia)).
  assert (secs mod 86400 mod 60 = secs mod 86400 mod 3600 mod 60).
  { symmetry. apply Z.mod_mod_divide. exists 60. reflexivity. }
  lia.
Qed.

(** ** Time rendering *)

Lemma ends_in_ago (digits : str) (unit : string) (text : str) :
  last (lit unit) = Some 111%N -> last text <> Some 111%N ->
  digits ++ lit unit <> text.
Proof.
  intros Hunit Htext Heq. apply Htext. rewrite <- Heq.
  destruct (lit unit) as [|c l] eqn:Hl; [discriminate|].
  rewrite last_app, Hunit. reflexivity.
Qed.

(** A rendering of a non-zero timestamp is never "unknown time". *)
Lemma short_time_ago_known (clk : clock) (t : Z) :
  t <> 0 -> short_time_ago clk (Some t) <> Returns (lit "unknown time").
Proof.
  intros Hne. unfold short_time_ago.
  destruct (Z.eqb_spec t 0) as [|_]; [contradiction|].
  destruct (fromtimestamp clk t) as [e|dt] eqn:Hdt; [discriminate|].
  destruct (now clk) as [e|current]; [discriminate|].
  cbv zeta.
  repeat match goal with
         | |- context [if ?b then _ else _] => destruct b
         end;
    intros Heq; inversion Heq as [Htext]; clear Heq.
  - revert Htext. apply ends_in_ago; [reflexivity|vm_compute; discriminate].
  - revert Htext. apply ends_in_ago; [reflexivity|vm_compute; discriminate].
  - revert Htext. apply ends_in_ago; [reflexivity|vm_compute; discriminate].
  - apply local_datetime_range in Hdt as [Hrange _].
    pose proof (isoformat_seconds_shape dt Hrange) as Hshape.
    rewrite Htext in Hshape. vm_compute in Hshape. discriminate.
Qed.

(** The two ways a call on a non-zero timestamp goes: the conversion of
    the timestamp or of the system time raises, or the age is computed. *)
Lemma short_time_ago_unconverted (clk : clock) (t : Z) :
  t <> 0 ->
  converts clk t && converts clk (time_us clk / 1000000) = false ->
  short_time_ago clk (Some t) = Raises Exception.
Proof.
  intros Hne Hout. unfold short_time_ago.
  destruct (Z.eqb_spec t 0) as [|_]; [contradiction|].
  unfold fromtimestamp, now, local_datetime. cbv zeta.
  rewrite Z.div_mul by lia.
  destruct (converts clk t); [|reflexivity].
  destruct (converts clk (time_us clk / 1000000)); [discriminate|reflexivity].
Qed.

Lemma short_time_ago_converted (clk : clock) (t : Z) :
  t <> 0 ->
  converts clk t = true -> converts clk (time_us clk / 1000000) = true ->
  let dt := t * 1000000 + utcoffset clk t * 1000000 in
  let current :=
    time_us clk + utcoffset clk (time_us clk / 1000000) * 1000000 in
  datetime_range dt /\ datetime_range current /\
  short_time_ago clk (Some t)
  = let s := int_total_seconds (current - dt) in
    if s <? 60 then Returns (of_int s ++ lit "s ago")
    else if s <? 3600 then Returns (of_int (s / 60) ++ lit "m ago")
    else if s <? 86400 then Returns (of_int (s / 3600) ++ lit "h ago")
    else Returns (isoformat_seconds dt).
Proof.
  intros Hne Hdt Hcur dt current.
  assert (Hfrom : fromtimestamp clk t = Returns dt).
  { unfold fromtimestamp, local_datetime. cbv zeta.
    rewrite Z.div_mul by lia. by rewrite Hdt. }
  assert (Hnow : now clk = Returns current).
  { unfold now, local_datetime. cbv zeta. by rewrite Hcur. }
  split; [by apply local_datetime_range in Hfrom as [? _]|].
  split; [by apply local_datetime_range in Hnow as [? _]|].
  unfold short_time_ago.
  destruct (Z.eqb_spec t 0) as [|_]; [contradiction|].
  rewrite Hfrom, Hnow. reflexivity.
Qed.

(** C6, as the code has it.  [None] and 0 render as "unknown time".  For
    another timestamp [t], the event's datetime is the local one of [t]
    and now is the local one of the system clock; when either does not
    convert (a year outside 1 .. 9999), the call raises.  Otherwise, with
    [q] the whole seconds (truncated) from the event's datetime to now:
    below 60 the rendering is "<s>s ago", where [s] is [q] for an event up
    to 2^34 seconds ahead and [q] or [q - 1] beyond that (the double of
    the difference is rounded before it is truncated); then
    "<q div 60>m ago" below 3600, "<q div 3600>h ago" below 86400, and
    from 86400 on a text of the form YYYY-MM-DD HH:MM:SS that spells the
    second of the event's datetime. *)
Theorem short_time_ago_rendering (clk : clock) (ts : option Z) :
  let r := short_time_ago clk ts in
  match ts with
  | None => r = Returns (lit "unknown time")
  | Some t =>
    let dt := t * 1000000 + utcoffset clk t * 1000000 in
    let current :=
      time_us clk + utcoffset clk (time_us clk / 1000000) * 1000000 in
    let q := Z.quot (current - dt) 1000000 in
    (t = 0 /\ r = Returns (lit "unknown time")) \/
    (t <> 0 /\
     converts clk t && converts clk (time_us clk / 1000000) = false /\
     r = Raises Exception) \/
    (t <> 0 /\
     converts clk t && converts clk (time_us clk / 1000000) = true /\
     ((q < 60 /\
       exists s, r = Returns (of_int s ++ lit "s ago") /\
                 q - 1 <= s <= q /\
                 (dt - current < 2 ^ 34 * 1000000 -> s = q)) \/
      (60 <= q < 3600 /\ r = Returns (of_int (q / 60) ++ lit "m ago")) \/
      (3600 <= q < 86400 /\ r = Returns (of_int (q / 3600) ++ lit "h ago")) \/
      (86400 <= q /\
       exists text, r = Returns text /\ iso_shape text = true /\
                    iso_seconds text = Some (dt / 1000000))))
  end.
Proof.
  destruct ts as [t|]; [|reflexivity].
  cbv zeta.
  destruct (Z.eq_dec t 0) as [->|Hne]; [left; split; reflexivity|].
  right.
  destruct (converts clk t && converts clk (time_us clk / 1000000)) eqn:Hin.
  2:{ left. split; [exact Hne|]. split; [reflexivity|].
      apply short_time_ago_unconverted; assumption. }
  right. split; [exact Hne|]. split; [reflexivity|].
  apply andb_true_iff in Hin as [Hc1 Hc2].
  destruct (short_time_ago_converted clk t Hne Hc1 Hc2)
    as (Hrange & Hnrange & ->).
  set (dt := t * 1000000 + utcoffset clk t * 1000000) in *.
  set (current :=
         time_us clk + utcoffset clk (time_us clk / 1000000) * 1000000) in *.
  cbv zeta.
  destruct (seconds_between current dt Hnrange Hrange)
    as (Hnear & Hexact & H60 & H3600 & H86400 & Hmid & Hahead).
  set (q := Z.quot (current - dt) 1000000) in *.
  set (s := int_total_seconds (current - dt)) in *.
  destruct (Z.ltb_spec s 60) as [Hs|Hs].
  { left. split; [lia|]. exists s. split; [reflexivity|].
    destruct (Z_lt_le_dec (current - dt) 60000000) as [Hlt|Hge].
    - destruct (Z_lt_le_dec (current - dt) 0) as [Hn|Hp].
      + split; [apply Hahead; lia|]. intros Hclose. apply Hexact. lia.
      + assert (s = q) by (apply Hexact; change (2 ^ 34) with 17179869184; lia).
        split; [lia|auto].
    - assert (60 <= q).
      { unfold q. rewrite Z.quot_div_nonneg by lia.
        apply Z.div_le_lower_bound; lia. }
      lia. }
  assert (Hsq : 60 <= q) by lia.
  destruct (Z.ltb_spec s 3600) as [Hs'|Hs'].
  { right; left. rewrite (Hmid ltac:(lia)). split; [lia|reflexivity]. }
  destruct (Z.ltb_spec s 86400) as [Hs''|Hs''].
  { right; right; left. rewrite (Hmid ltac:(lia)). split; [lia|reflexivity]. }
  right; right; right. split; [lia|].
  exists (isoformat_seconds dt). split; [reflexivity|].
  split; [apply isoformat_seconds_shape|apply isoformat_seconds_reads_back];
    exact Hrange.
Qed.

(** C6, as stated, fails for a timestamp [datetime.fromtimestamp] cannot
    convert, such as one in milliseconds: the call raises and there is no
    rendering.  And 17_179_869_193.999999 seconds before the event the
    number shown is not the whole number of seconds. *)
Lemma short_time_ago_no_rendering :
  short_time_ago utc_1700000000 (Some 1700000000000) = Raises Exception /\
  (short_time_ago (fixed_offset_clock 0 1) (Some 17179869194)
   = Returns (lit "-17179869194s ago") /\
   Z.quot (1 - 17179869194 * 1000000) 1000000 = - 17179869193).
Proof. vm_compute. repeat split; reflexivity. Qed.

(** C9, as the code has it.  A non-zero timestamp after the time of the
    system clock never renders as "unknown time".  The call raises when
    the timestamp (or the system time) does not convert to a local
    datetime of the years 1 to 9999.  Otherwise, when the offset of the
    local zone at the timestamp is the one in force now, the rendering is
    "<s>s ago" with [s <= 0]: [s] is negative exactly when the timestamp
    is at least one second ahead, it is minus the whole seconds ahead up
    to 2^34 seconds, and that or one less beyond. *)
Theorem short_time_ago_future (clk : clock) (t : Z) :
  t <> 0 ->
  time_us clk < t * 1000000 ->
  let r := short_time_ago clk (Some t) in
  let ahead := t * 1000000 - time_us clk in
  r <> Returns (lit "unknown time") /\
  (converts clk t && converts clk (time_us clk / 1000000) = false ->
   r = Raises Exception) /\
  (converts clk t && converts clk (time_us clk / 1000000) = true ->
   utcoffset clk t = utcoffset clk (time_us clk / 1000000) ->
   exists s, r = Returns (of_int s ++ lit "s ago") /\
             s <= 0 /\ (s < 0 <-> 1000000 <= ahead) /\
             - (ahead / 1000000) - 1 <= s <= - (ahead / 1000000) /\
             (ahead < 2 ^ 34 * 1000000 -> s = - (ahead / 1000000))).
Proof.
  intros Hne Hfuture r ahead.
  split; [apply short_time_ago_known; exact Hne|].
  split; [apply short_time_ago_unconverted; exact Hne|].
  intros Hin Hoff. apply andb_true_iff in Hin as [Hc1 Hc2].
  destruct (short_time_ago_converted clk t Hne Hc1 Hc2) as (Hdt & Hcur & Hr).
  set (dt := t * 1000000 + utcoffset clk t * 1000000) in *.
  set (current :=
         time_us clk + utcoffset clk (time_us clk / 1000000) * 1000000) in *.
  assert (Hdiff : current - dt = - ahead).
  { unfold current, dt, ahead. rewrite Hoff. lia. }
  assert (Hq : Z.quot (current - dt) 1000000 = - (ahead / 1000000)).
  { rewrite Hdiff, Z.quot_opp_l, Z.quot_div_nonneg by (unfold ahead; lia).
    reflexivity. }
  assert (Hpos : 0 <= ahead / 1000000)
    by (apply Z.div_pos; unfold ahead; lia).
  destruct (seconds_between current dt Hcur Hdt)
    as (_ & Hexact & _ & _ & _ & _ & Hahead).
  destruct (Hahead ltac:(lia)) as [Hs Hs0].
  rewrite Hq in Hs, Hexact.
  exists (int_total_seconds (current - dt)).
  split.
  { unfold r. rewrite Hr. cbv zeta.
    destruct (Z.ltb_spec (int_total_seconds (current - dt)) 60);
      [reflexivity|lia]. }
  split; [exact Hs0|].
  assert (Hclose : ahead < 2 ^ 34 * 1000000 ->
                   int_total_seconds (current - dt) = - (ahead / 1000000)).
  { intros Hlt. apply Hexact. rewrite Hdiff.
    rewrite Z.abs_neq by (unfold ahead; lia). lia. }
  split; [|split; [exact Hs|exact Hclose]].
  split.
  - intros Hneg.
    destruct (Z_lt_le_dec ahead 1000000) as [Hsmall|]; [|assumption].
    rewrite Hclose in Hneg by (change (2 ^ 34) with 17179869184; lia).
    rewrite Z.div_small in Hneg by (unfold ahead in *; lia). lia.
  - intros Hbig.
    assert (1 <= ahead / 1000000) by (apply Z.div_le_lower_bound; lia).
    lia.
Qed.

Lemma short_time_ago_future_witness :
  short_time_ago utc_1700000000 (Some 1700000031) = Returns (lit "-30s ago").
Proof.
  assert (H0 : 1700000031 <> 0) by lia.
  assert (H1 : time_us utc_1700000000 < 1700000031 * 1000000)
    by (vm_compute; reflexivity).
  destruct (short_time_ago_future utc_1700000000 1700000031 H0 H1)
    as (_ & _ & Hr).
  destruct Hr as (s & Hr & _ & _ & _ & Hs).
  - vm_compute. reflexivity.
  - reflexivity.
  - rewrite Hr, Hs by (vm_compute; reflexivity). vm_compute. reflexivity.
Defined.

(** C9, as stated, fails in three ways.  Half a second before the event
    the rendering is "0s ago", and no negative [s] gives that string.  A
    timestamp in milliseconds is in the future and the call raises.  And
    in a zone that sets its clocks back an hour, a timestamp twenty
    minutes ahead, on the other side of the change, renders as
    "40m ago". *)
Lemma future_timestamp_not_negative :
  (time_us utc_1700000000 < 1700000001 * 1000000 /\
   short_time_ago utc_1700000000 (Some 1700000001) = Returns (lit "0s ago") /\
   ~ exists s, s < 0 /\
       short_time_ago utc_1700000000 (Some 1700000001)
       = Returns (of_int s ++ lit "s ago")) /\
  (time_us utc_1700000000 < 1700000000000 * 1000000 /\
   short_time_ago utc_1700000000 (Some 1700000000000) = Raises Exception) /\
  (let clk := falls_back_at 1700000000 (1699999400 * 1000000) in
   time_us clk < 1700000600 * 1000000 /\
   short_time_ago clk (Some 1700000600) = Returns (lit "40m ago")).
Proof.
  split; [|split; vm_compute; split; reflexivity].
  split; [vm_compute; reflexivity|]. split; [vm_compute; reflexivity|].
  intros (s & Hneg & Heq).
  destruct (of_int_negative s Hneg) as [digits Hd].
  rewrite Hd in Heq. vm_compute in Heq. discriminate.
Qed.

(** ** The order on strings *)

Lemma leb_refl (a : str) : leb a a = true.
Proof.
  induction a as [|x a IH]; [reflexivity|]. simpl.
  rewrite N.eqb_refl, IH. apply orb_true_r.
Qed.

Lemma leb_total (a b : str) : leb a b = true \/ leb b a = true.
Proof.
  revert b. induction a as [|x a IH]; intros [|y b]; simpl; auto.
  destruct (N.ltb_spec x y); [auto|].
  destruct (N.ltb_spec y x); [auto|].
  assert (x = y) by lia. subst. rewrite N.eqb_refl. simpl. apply IH.
Qed.

Lemma leb_trans (a b c : str) :
  leb a b = true -> leb b c = true -> leb a c = true.
Proof.
  revert b c. induction a as [|x a IH]; intros [|y b] [|z c]; simpl;
    try congruence.
  intros Hab Hbc.
  apply orb_true_iff in Hab, Hbc. apply orb_true_iff.
  destruct Hab as [Hxy|Hxy]; destruct Hbc as [Hyz|Hyz];
    try apply andb_true_iff in Hxy; try apply andb_true_iff in Hyz;
    repeat match goal with
           | H : _ /\ _ |- _ => destruct H
           | H : (_ <? _)%N = true |- _ => apply N.ltb_lt in H
           | H : (_ =? _)%N = true |- _ => apply N.eqb_eq in H
           end; subst.
  - left. apply N.ltb_lt. lia.
  - left. apply N.ltb_lt. lia.
  - left. apply N.ltb_lt. lia.
  - right. rewrite N.eqb_refl. simpl. eauto.
Qed.

Lemma leb_antisym (a b : str) :
  leb a b = true -> leb b a = true -> a = b.
Proof.
  revert b. induction a as [|x a IH]; intros [|y b]; simpl;
    try congruence.
  intros Hab Hba.
  apply orb_true_iff in Hab, Hba.
  destruct Hab as [Hxy|Hxy]; destruct Hba as [Hyx|Hyx];
    try apply andb_true_iff in Hxy; try apply andb_true_iff in Hyx;
    repeat match goal with
           | H : _ /\ _ |- _ => destruct H
           | H : (_ <? _)%N = true |- _ => apply N.ltb_lt in H
           | H : (_ =? _)%N = true |- _ => apply N.eqb_eq in H
           end; subst; try lia.
  f_equal. auto.
Qed.

#[global] Instance le_total : Total PyStr.le.
Proof. intros a b. apply leb_total. Qed.

#[global] Instance le_trans : Transitive PyStr.le.
Proof. intros a b c. apply leb_trans. Qed.

#[global] Instance le_antisym : AntiSymm (=) PyStr.le.
Proof. intros a b. apply leb_antisym. Qed.

(** ** Saving *)

Lemma sorted_list_perm (l1 l2 : list str) :
  l1 ≡ₚ l2 -> sorted_list l1 = sorted_list l2.
Proof.
  intros Hp. unfold sorted_list.
  apply (Sorted_unique PyStr.le); try apply Sorted_merge_sort; try apply _.
  rewrite !merge_sort_Permutation. exact Hp.
Qed.

Lemma sorted_elem_of (ids : gset str) (k : str) : k ∈ sorted ids <-> k ∈ ids.
Proof.
  unfold sorted, sorted_list. rewrite merge_sort_Permutation.
  apply elem_of_elements.
Qed.

Lemma sorted_NoDup (ids : gset str) : NoDup (sorted ids).
Proof.
  unfold sorted, sorted_list. rewrite merge_sort_Permutation.
  apply NoDup_elements.
Qed.

Lemma sorted_ascending (ids : gset str) : StronglySorted PyStr.le (sorted ids).
Proof. apply StronglySorted_merge_sort; apply _. Qed.

Lemma write_lines_concat (ids : list str) :
  write_lines ids = concat (List.map (fun k => k ++ [LF]) ids).
Proof. induction ids as [|k ids IH]; simpl; [|rewrite IH]; reflexivity. Qed.

Lemma readlines_line (k rest : str) :
  Forall (fun c => c <> LF) k ->
  readlines (k ++ LF :: rest) = (k ++ [LF]) :: readlines rest.
Proof.
  induction 1 as [|c k Hc _ IH]; simpl; [reflexivity|].
  destruct (N.eqb_spec c LF); [contradiction|]. rewrite IH. reflexivity.
Qed.

Lemma readlines_write_lines (ks : list str) :
  Forall (Forall (fun c => c <> LF)) ks ->
  readlines (write_lines ks) = List.map (fun k => k ++ [LF]) ks.
Proof.
  induction 1 as [|k ks Hk _ IH]; simpl; [reflexivity|].
  rewrite <- app_assoc. simpl. rewrite readlines_line by exact Hk.
  rewrite IH. reflexivity.
Qed.

(** ** Stripping *)

Lemma lstrip_elem_of (c : char) (l : str) : c ∈ lstrip l -> c ∈ l.
Proof.
  induction l as [|x l IH]; simpl; [auto|].
  destruct (isspace x); [|auto]. intros H. right. auto.
Qed.

Lemma lstrip_head (l : str) :
  lstrip l = [] \/ exists c r, lstrip l = c :: r /\ isspace c = false.
Proof.
  induction l as [|x l IH]; simpl; [auto|].
  destruct (isspace x) eqn:Hx; [exact IH|]. right. eauto.
Qed.

Lemma lstrip_fixed (c : char) (l : str) :
  isspace c = false -> lstrip (c :: l) = c :: l.
Proof. intros H. simpl. rewrite H. reflexivity. Qed.

Lemma lstrip_snoc_space (c : char) (l : str) :
  isspace c = true ->
  lstrip (l ++ [c]) = match lstrip l with [] => [] | m => m ++ [c] end.
Proof.
  intros Hc. induction l as [|x l IH]; simpl.
  - rewrite Hc. reflexivity.
  - destruct (isspace x); [exact IH|reflexivity].
Qed.

Lemma lstrip_snoc_nonspace (c : char) (l : str) :
  isspace c = false -> lstrip (l ++ [c]) = lstrip l ++ [c].
Proof.
  intros Hc. induction l as [|x l IH]; simpl.
  - rewrite Hc. reflexivity.
  - destruct (isspace x); [exact IH|reflexivity].
Qed.

Lemma rstrip_snoc_space (c : char) (l : str) :
  isspace c = true -> rstrip (l ++ [c]) = rstrip l.
Proof.
  intros Hc. unfold rstrip. rewrite reverse_snoc. simpl. rewrite Hc.
  reflexivity.
Qed.

Lemma rstrip_fixed (c : char) (l : str) :
  isspace c = false -> rstrip (l ++ [c]) = l ++ [c].
Proof.
  intros Hc. unfold rstrip. rewrite reverse_snoc, lstrip_fixed by exact Hc.
  rewrite reverse_cons, reverse_involutive. reflexivity.
Qed.

Lemma rstrip_elem_of (c : char) (l : str) : c ∈ rstrip l -> c ∈ l.
Proof.
  unfold rstrip. rewrite elem_of_reverse. intros H.
  apply lstrip_elem_of in H. by apply elem_of_reverse.
Qed.

Lemma strip_elem_of (c : char) (l : str) : c ∈ strip l -> c ∈ l.
Proof.
  unfold strip. intros H. by apply lstrip_elem_of, rstrip_elem_of.
Qed.

Lemma strip_snoc_space (c : char) (l : str) :
  isspace c = true -> strip (l ++ [c]) = strip l.
Proof.
  intros Hc. unfold strip. rewrite lstrip_snoc_space by exact Hc.
  destruct (lstrip l) as [|x m]; [reflexivity|].
  apply rstrip_snoc_space, Hc.
Qed.

Lemma strip_last (l : str) :
  strip l <> [] -> exists c, last (strip l) = Some c /\ isspace c = false.
Proof.
  unfold strip, rstrip. intros Hne.
  destruct (lstrip_head (reverse (lstrip l))) as [Hnil|(c & r & Hcr & Hc)].
  - rewrite Hnil in Hne. contradiction.
  - rewrite Hcr, reverse_cons, last_snoc. eauto.
Qed.

Lemma strip_head (l : str) :
  strip l <> [] -> exists c, head (strip l) = Some c /\ isspace c = false.
Proof.
  unfold strip. intros Hne.
  destruct (lstrip_head l) as [Hnil|(c & r & Hcr & Hc)].
  - rewrite Hnil in Hne. contradiction.
  - rewrite Hcr. unfold rstrip.
    rewrite reverse_cons, lstrip_snoc_nonspace by exact Hc.
    rewrite reverse_snoc. simpl. eauto.
Qed.

Lemma rstrip_last_nonspace (c : char) (l : str) :
  last l = Some c -> isspace c = false -> rstrip l = l.
Proof.
  destruct l as [|y l _] using rev_ind; [discriminate|].
  rewrite last_snoc. intros Heq Hc.
  assert (y = c) by congruence. subst y.
  apply rstrip_fixed, Hc.
Qed.

Lemma strip_storable_line (k : str) :
  storable k -> strip (k ++ [LF]) = k.
Proof.
  intros ((c & Hhead & Hc) & (c' & Hlast & Hc') & _).
  rewrite strip_snoc_space by reflexivity.
  unfold strip.
  destruct k as [|x k]; [discriminate|]. simpl in Hhead.
  assert (x = c) by congruence. subst x.
  rewrite lstrip_fixed by exact Hc.
  eapply rstrip_last_nonspace; eassumption.
Qed.

(** ** Reading *)

Lemma universal_newlines_without_cr (s : str) :
  Forall (fun c => c <> CR) s -> universal_newlines false s = s.
Proof.
  induction 1 as [|c s Hc _ IH]; simpl; [reflexivity|].
  destruct (N.eqb_spec c CR); [contradiction|].
  destruct (N.eqb_spec c LF) as [->|]; rewrite IH; reflexivity.
Qed.

Lemma universal_newlines_no_cr (after_cr : bool) (s : str) :
  Forall (fun c => c <> CR) (universal_newlines after_cr s).
Proof.
  revert after_cr. induction s as [|c s IH]; intros after_cr; simpl;
    [constructor|].
  destruct (N.eqb_spec c CR); [constructor; [discriminate|apply IH]|].
  destruct (N.eqb_spec c LF).
  - destruct after_cr; [apply IH|constructor; [discriminate|apply IH]].
  - constructor; [assumption|apply IH].
Qed.

(** Every line is a stretch without line feed, closed by one or, at the
    end of the text, by nothing. *)
Lemma readlines_shape (text : str) :
  Forall (fun line => exists body,
            Forall (fun c => c <> LF) body /\
            (line = body ++ [LF] \/ line = body) /\
            forall c, c ∈ body -> c ∈ text)
         (readlines text).
Proof.
  induction text as [|c text IH]; simpl; [constructor|].
  assert (Hweak : Forall (fun line => exists body,
            Forall (fun c => c <> LF) body /\
            (line = body ++ [LF] \/ line = body) /\
            forall x, x ∈ body -> x ∈ c :: text) (readlines text)).
  { eapply Forall_impl; [exact IH|].
    intros line (body & Hb & Hl & Hsub). exists body.
    repeat split; auto. intros x Hx. right. auto. }
  destruct (N.eqb_spec c LF) as [->|Hc].
  - constructor; [|exact Hweak].
    exists []. repeat split; [constructor|left; reflexivity|].
    intros x Hx. inversion Hx.
  - destruct (readlines text) as [|l ls].
    + constructor; [|constructor].
      exists [c]. repeat split; [repeat constructor; exact Hc|auto|].
      intros x Hx. apply list_elem_of_singleton in Hx. subst. left.
    + inversion Hweak as [|? ? (body & Hb & Hl & Hsub) Hrest]; subst.
      constructor; [|exact Hrest].
      exists (c :: body). repeat split.
      * constructor; assumption.
      * destruct Hl as [->| ->]; auto.
      * intros x Hx. apply elem_of_cons in Hx as [->|Hx]; [left|auto].
Qed.

Lemma seen_of_text_elem_of (text k : str) :
  k ∈ seen_of_text text <->
  k <> [] /\ exists line, line ∈ readlines text /\ k = strip line.
Proof.
  unfold seen_of_text. rewrite elem_of_list_to_set, list_elem_of_In, in_map_iff.
  split.
  - intros (line & <- & Hin). apply filter_In in Hin as [Hin Hne].
    apply negb_true_iff, bool_decide_eq_false in Hne.
    split; [exact Hne|]. exists line. split; [by apply list_elem_of_In|done].
  - intros (Hne & line & Hin & ->). exists line. split; [reflexivity|].
    apply filter_In. split; [by apply list_elem_of_In|].
    by apply negb_true_iff, bool_decide_eq_false.
Qed.

(** What [load_seen_ids] returns is made of storable keys only. *)
Lemma loaded_keys_storable (content k : str) :
  k ∈ seen_of_text (universal_newlines false content) -> storable k.
Proof.
  rewrite seen_of_text_elem_of. intros (Hne & line & Hin & ->).
  pose proof (readlines_shape (universal_newlines false content)) as Hshape.
  rewrite Forall_forall in Hshape.
  destruct (Hshape line Hin) as (body & Hb & Hl & Hsub).
  assert (Hstrip : strip line = strip body).
  { destruct Hl as [->| ->]; [|reflexivity].
    by apply strip_snoc_space. }
  rewrite Hstrip in *.
  split; [by apply strip_head|]. split; [by apply strip_last|].
  apply Forall_forall. intros c Hc. apply strip_elem_of in Hc.
  split.
  - rewrite Forall_forall in Hb. auto.
  - pose proof (universal_newlines_no_cr false content) as Hcr.
    rewrite Forall_forall in Hcr. auto.
Qed.

(** ** What [save_seen_ids] writes *)

Lemma readlines_one_per_line (ks : list str) :
  readlines (write_lines ks) = List.map (fun k => k ++ [LF]) ks <->
  Forall (Forall (fun c => c <> LF)) ks.
Proof.
  split; [|apply readlines_write_lines].
  intros Heq. apply Forall_forall. intros k Hk.
  pose proof (readlines_shape (write_lines ks)) as Hshape.
  rewrite Heq, Forall_forall in Hshape.
  destruct (Hshape (k ++ [LF])) as (body & Hbody & Hline & _).
  { apply list_elem_of_fmap. exists k. split; [reflexivity|exact Hk]. }
  destruct Hline as [Hline|Hline].
  - apply app_inj_tail in Hline as [-> _]. exact Hbody.
  - rewrite <- Hline in Hbody. apply Forall_app in Hbody as [_ Hlf].
    inversion Hlf; subst. contradiction.
Qed.

(** C8, as the code has it.  [save_seen_ids] on a path that can be opened
    replaces whatever was there by the keys of the set, each followed by
    a line feed, in ascending order and without repetition; the text is
    the same for every order in which the set may yield its elements;
    and the lines of the file are the keys, one per line, exactly when no
    key holds a line feed itself. *)
Theorem save_writes_sorted_lines (prior : option str) (ids : gset str) :
  save_seen_ids (openable prior) ids
    = (Returns tt,
       File (concat (List.map (fun k => k ++ [LF]) (sorted ids)))) /\
  StronglySorted PyStr.le (sorted ids) /\
  NoDup (sorted ids) /\
  (forall k, k ∈ sorted ids <-> k ∈ ids) /\
  (forall order, order ≡ₚ elements ids ->
     write_lines (sorted_list order) = write_lines (sorted ids)) /\
  (readlines (write_lines (sorted ids))
   = List.map (fun k => k ++ [LF]) (sorted ids) <->
   forall k, k ∈ ids -> LF ∉ k).
Proof.
  split.
  { rewrite <- write_lines_concat. destruct prior; reflexivity. }
  split; [apply sorted_ascending|].
  split; [apply sorted_NoDup|].
  split; [apply sorted_elem_of|]. split.
  { intros order Hp. unfold sorted. rewrite (sorted_list_perm _ _ Hp).
    reflexivity. }
  rewrite readlines_one_per_line, Forall_forall.
  split.
  - intros Hall k Hk Hin. apply sorted_elem_of in Hk.
    specialize (Hall k Hk). rewrite Forall_forall in Hall.
    exact (Hall LF Hin eq_refl).
  - intros Hall k Hk. apply sorted_elem_of in Hk.
    apply Forall_forall. intros c Hc ->. exact (Hall k Hk Hc).
Qed.

(** C8, as stated, fails for a key that holds a line feed: the one key
    is written as two lines, and neither line is the key. *)
Lemma save_key_with_line_feed :
  let key := lit "a" ++ [LF] ++ lit "z" in
  save_seen_ids Absent {[ key ]}
  = (Returns tt, File (lit "a" ++ [LF] ++ lit "z" ++ [LF])) /\
  readlines (lit "a" ++ [LF] ++ lit "z" ++ [LF])
  = [lit "a" ++ [LF]; lit "z" ++ [LF]].
Proof. vm_compute. split; reflexivity. Qed.

(** ** Loading *)

(** C3, as the code has it. [load_seen_ids] returns the empty set when
    there is no file and the stripped non-blank lines of a file it can
    read; when the path exists and cannot be read the exception leaves
    [load_seen_ids], and [main_loop] with it. *)
Theorem load_seen_ids_cases (file : storage) (TICKERS : list str) :
  match file with
  | Absent => load_seen_ids file = Returns ∅
  | File content =>
    load_seen_ids file
      = Returns (seen_of_text (universal_newlines false content))
  | Blocked =>
    load_seen_ids file = Raises Exception /\
    main_loop_start file TICKERS = Raises Exception
  end.
Proof. destruct file; try split; reflexivity. Qed.

(** C3, as stated, fails on a path that exists and cannot be read: the
    call raises instead of returning the empty set. *)
Lemma load_seen_ids_unreadable_raises :
  load_seen_ids Blocked = Raises Exception /\
  load_seen_ids Blocked <> Returns ∅.
Proof. split; [reflexivity|discriminate]. Qed.

(** ** Round trips *)

Lemma write_lines_elem_of (ks : list str) (c : char) :
  c ∈ write_lines ks -> c = LF \/ exists k, k ∈ ks /\ c ∈ k.
Proof.
  induction ks as [|k ks IH]; simpl; [intros H; inversion H|].
  rewrite !elem_of_app, list_elem_of_singleton.
  intros [[Hk| ->]|Hrest]; [right|left; reflexivity|].
  - exists k. split; [left|exact Hk].
  - destruct (IH Hrest) as [->|(k' & Hk' & Hc)]; [left; reflexivity|right].
    exists k'. split; [by right|exact Hc].
Qed.

Lemma load_after_save (prior : option str) (ids : gset str) :
  set_Forall storable ids ->
  load_seen_ids (save_seen_ids (openable prior) ids).2 = Returns ids.
Proof.
  intros Hst.
  assert (Hsave : (save_seen_ids (openable prior) ids).2
                  = File (write_lines (sorted ids)))
    by (destruct prior; reflexivity).
  rewrite Hsave. unfold load_seen_ids. f_equal.
  assert (Hkeys : forall k, k ∈ sorted ids -> storable k).
  { intros k Hk. apply Hst, sorted_elem_of, Hk. }
  rewrite universal_newlines_without_cr.
  2:{ apply Forall_forall. intros c Hc.
      apply write_lines_elem_of in Hc as [->|(k & Hk & Hc)]; [discriminate|].
      destruct (Hkeys k Hk) as (_ & _ & Hall).
      rewrite Forall_forall in Hall. apply (Hall c Hc). }
  unfold seen_of_text. rewrite readlines_write_lines.
  2:{ apply Forall_forall. intros k Hk. apply Forall_forall. intros c Hc.
      destruct (Hkeys k Hk) as (_ & _ & Hall).
      rewrite Forall_forall in Hall. apply (Hall c Hc). }
  apply set_eq. intros k.
  rewrite elem_of_list_to_set, list_elem_of_In, in_map_iff. split.
  - intros (line & <- & Hin). apply filter_In in Hin as [Hin _].
    apply in_map_iff in Hin as (k' & <- & Hk').
    apply list_elem_of_In in Hk'.
    rewrite strip_storable_line by auto. by apply sorted_elem_of.
  - intros Hk. exists (k ++ [LF]).
    assert (Hsk : storable k) by auto.
    rewrite strip_storable_line by exact Hsk. split; [reflexivity|].
    apply filter_In. split.
    + apply in_map_iff. exists k. split; [reflexivity|].
      by apply list_elem_of_In, sorted_elem_of.
    + apply negb_true_iff, bool_decide_eq_false.
      rewrite strip_storable_line by exact Hsk.
      destruct Hsk as ((c & Hhead & _) & _). intros ->. discriminate.
Qed.

(** C4, as the code has it. A set whose keys are all storable (not
    empty, no white space at either end, no line break inside) is read
    back from the file [save_seen_ids] wrote for it; and whatever a file
    holds, saving what [load_seen_ids] read from it gives a file that
    loads to the same set. *)
Theorem save_load_round_trip (prior : option str) (ids : gset str)
    (content : str) :
  set_Forall storable ids ->
  load_seen_ids (save_seen_ids (openable prior) ids).2 = Returns ids /\
  exists loaded,
    load_seen_ids (File content) = Returns loaded /\
    load_seen_ids (save_seen_ids (File content) loaded).2 = Returns loaded.
Proof.
  intros Hst. split; [by apply load_after_save|].
  exists (seen_of_text (universal_newlines false content)).
  split; [reflexivity|].
  apply (load_after_save (Some content)).
  intros k Hk. by apply loaded_keys_storable in Hk.
Qed.

Lemma BRN_1_storable : storable BRN_1.
Proof.
  split; [exists 66%N; split; reflexivity|].
  split; [exists 49%N; split; reflexivity|].
  unfold BRN_1. repeat constructor; discriminate.
Qed.

Lemma save_load_round_trip_witness :
  load_seen_ids (save_seen_ids Absent {[ BRN_1 ]}).2 = Returns {[ BRN_1 ]}.
Proof.
  assert (H : set_Forall storable ({[ BRN_1 ]} : gset str)).
  { intros k Hk. apply elem_of_singleton in Hk. subst k.
    exact BRN_1_storable. }
  exact (proj1 (save_load_round_trip None {[ BRN_1 ]} [] H)).
Defined.

(** C4, as stated, fails for a key that ends in a blank: the file holds
    the key, and loading it yields the key without the blank. *)
Lemma save_load_loses_trailing_blank :
  let ids : gset str := {[ lit "BRN:1 " ]} in
  load_seen_ids (save_seen_ids Absent ids).2 = Returns {[ BRN_1 ]} /\
  load_seen_ids (save_seen_ids Absent ids).2 <> Returns ids.
Proof.
  cbv zeta.
  assert (Hload : load_seen_ids (save_seen_ids Absent {[ lit "BRN:1 " ]}).2
                  = Returns {[ BRN_1 ]}) by (vm_compute; reflexivity).
  split; [exact Hload|]. rewrite Hload. intros Heq.
  assert (Hset : ({[ BRN_1 ]} : gset str) = {[ lit "BRN:1 " ]})
    by exact (f_equal (fun o => match o with
                                | Returns x => x
                                | Raises _ => ∅
                                end) Heq).
  assert (Hin : lit "BRN:1 " ∈ ({[ BRN_1 ]} : gset str)).
  { rewrite Hset. by apply elem_of_singleton. }
  apply elem_of_singleton in Hin. vm_compute in Hin. discriminate.
Qed.

(** ** Traces and the seen set *)


Lemma article_key_keyless (nt : NewsTick) :
  keyless nt -> article_key nt = lit ":".
Proof.
  unfold keyless, article_key.
  intros [[-> | ->] [-> | ->]]; reflexivity.
Qed.

Lemma replay_app (seen0 : gset str) (a b : list event) :
  replay seen0 (a ++ b) = replay (replay seen0 a) b.
Proof. apply fold_left_app. Qed.

Lemma consistent_app (seen0 : gset str) (a b : list event) :
  consistent seen0 (a ++ b) <->
  consistent seen0 a /\ consistent (replay seen0 a) b.
Proof.
  revert seen0. induction a as [|e a IH]; intros seen0; simpl; [tauto|].
  rewrite IH. tauto.
Qed.

Lemma published_keys_app (a b : list event) :
  published_keys (a ++ b) = published_keys a ++ published_keys b.
Proof. apply omap_app. Qed.

Lemma replay_published (seen0 : gset str) (evs : list event) :
  replay seen0 evs = list_to_set (published_keys evs) ∪ seen0.
Proof.
  revert seen0. induction evs as [|e evs IH]; intros seen0.
  - simpl. set_solver.
  - change (replay seen0 (e :: evs)) with (replay (record seen0 e) evs).
    rewrite IH. unfold record, published_keys. simpl.
    destruct (published_key e); simpl; set_solver.
Qed.

Lemma replay_subseteq (seen0 : gset str) (evs : list event) :
  seen0 ⊆ replay seen0 evs.
Proof. rewrite replay_published. set_solver. Qed.

Lemma quiet_record (seen0 : gset str) (e : event) :
  quiet e = true -> record seen0 e = seen0 /\ allowed seen0 e.
Proof. destruct e; simpl; try discriminate; auto. Qed.

Lemma quiet_consistent (seen0 : gset str) (evs : list event) :
  Forall (fun e => quiet e = true) evs ->
  consistent seen0 evs /\ replay seen0 evs = seen0.
Proof.
  induction 1 as [|e evs He _ IH]; [split; reflexivity|].
  destruct (quiet_record seen0 e He) as [Hr Ha].
  change (replay seen0 (e :: evs)) with (replay (record seen0 e) evs).
  simpl. rewrite Hr. tauto.
Qed.

Lemma consistent_published (seen0 : gset str) (evs : list event) :
  consistent seen0 evs ->
  NoDup (published_keys evs) /\
  forall k, k ∈ published_keys evs -> k ∉ seen0.
Proof.
  revert seen0. induction evs as [|e evs IH]; intros seen0.
  - intros _. split; [constructor|]. intros k Hk. inversion Hk.
  - simpl. intros [Ha Hc]. destruct (IH _ Hc) as [Hnd Hnot].
    unfold published_keys in *. simpl.
    destruct e; simpl in *; try (split; assumption).
    unfold record in Hnot. simpl in Hnot. split.
    + constructor; [|exact Hnd]. intros Hin. apply (Hnot _ Hin). set_solver.
    + intros k Hk. apply elem_of_cons in Hk as [->|Hk]; [exact Ha|].
      specialize (Hnot k Hk). set_solver.
Qed.

(** A later console write, done or failed, is never for a key that an
    earlier one of the same trace published. *)
Lemma consistent_after_published (seen0 : gset str) (e1 e2 : list event)
    (sym : str) (nt : NewsTick) (text : str) :
  consistent seen0 (e1 ++ Published sym nt text :: e2) ->
  (article_key nt ∉ seen0) /\
  (article_key nt ∉ published_keys e1) /\
  (article_key nt ∉ published_keys e2) /\
  Forall (fun e => match e with
                   | Published _ nt' _ | PrintRaised _ nt'
                   | RenderRaised _ nt' =>
                     article_key nt' <> article_key nt
                   | _ => True
                   end) e2.
Proof.
  intros Hc. apply consistent_app in Hc as [_ Hc]. simpl in Hc.
  destruct Hc as [Hfresh Hrest].
  rewrite replay_published in Hfresh.
  split; [set_solver|]. split; [set_solver|].
  assert (Hin : article_key nt ∈ record (replay seen0 e1) (Published sym nt text))
    by (unfold record; simpl; set_solver).
  revert Hrest Hin. generalize (record (replay seen0 e1) (Published sym nt text)).
  induction e2 as [|e e2 IH]; intros seen1 Hrest Hin.
  - split; [intros H; inversion H|constructor].
  - simpl in Hrest. destruct Hrest as [Ha Hrest].
    assert (Hin' : article_key nt ∈ record seen1 e).
    { unfold record. destruct (published_key e); set_solver. }
    destruct (IH _ Hrest Hin') as [Hnot Hall]. split.
    + unfold published_keys in *. simpl.
      destruct e; simpl in *; try exact Hnot.
      intros Hk. apply elem_of_cons in Hk as [Hk|Hk]; [|auto].
      rewrite Hk in Hin. contradiction.
    + constructor; [|exact Hall].
      destruct e; simpl in *; try exact I; intros Heq; rewrite Heq in Ha;
        contradiction.
Qed.

(** A failed publication is for a key that was not in the seen set
    then. *)
Lemma consistent_failed (seen0 : gset str) (e1 e2 : list event)
    (f : event) (nt : NewsTick) :
  publish_failure f = Some nt ->
  consistent seen0 (e1 ++ f :: e2) ->
  (article_key nt ∉ replay seen0 e1) /\ published_key f = None.
Proof.
  intros Hf Hc. apply consistent_app in Hc as [_ Hc]. simpl in Hc.
  destruct f; try discriminate; simpl in Hf;
    assert (nt0 = nt) by congruence; subst; simpl in Hc; tauto.
Qed.



Lemma published_keys_blocks (evs : list event) :
  published_keys evs
  = List.map (fun b => article_key b.1.2) (published_blocks evs).
Proof.
  induction evs as [|e evs IH]; [reflexivity|].
  unfold published_keys, published_blocks in *.
  destruct e; simpl; try exact IH. f_equal. exact IH.
Qed.




(** ** What a computation adds to the trace *)

Section Tracks.
Context {A B : Type} (P : event -> Prop).

Lemma tracks_silent (m : M A) :
  (forall s, (m s).2 = s) -> tracks P m.
Proof.
  intros Hm s. exists []. rewrite Hm, app_nil_r. repeat split; constructor.
Qed.

Lemma tracks_mret (a : A) : tracks P (mret a).
Proof. by apply tracks_silent. Qed.

Lemma tracks_call (r : outcome A) : tracks P (call r).
Proof. by apply tracks_silent. Qed.

Lemma tracks_bind (m : M A) (k : A -> M B) :
  tracks P m -> (forall a, (exists s, (m s).1 = Returns a) -> tracks P (k a)) ->
  tracks P (m ≫= k).
Proof.
  intros Hm Hk s. unfold mbind, M_bind.
  destruct (Hm s) as (e1 & Ht1 & Hc1 & Hs1 & Hp1).
  destruct (m s) as [[e|a] s1] eqn:Hms; simpl in *; [by exists e1|].
  assert (Hka : tracks P (k a)) by (apply Hk; exists s; by rewrite Hms).
  destruct (Hka s1) as (e2 & Ht2 & Hc2 & Hs2 & Hp2).
  exists (e1 ++ e2). rewrite Ht2, Ht1, Hs2, Hs1, app_assoc, replay_app.
  split; [reflexivity|]. split; [|split; [reflexivity|by apply Forall_app]].
  apply consistent_app. by rewrite <- Hs1.
Qed.

Lemma tracks_try_except (body handler : M A) :
  tracks P body -> tracks P handler -> tracks P (try_except body handler).
Proof.
  intros Hb Hh s. unfold try_except.
  destruct (Hb s) as (e1 & Ht1 & Hc1 & Hs1 & Hp1).
  destruct (body s) as [[[|]|a] s1] eqn:Hbs; simpl in *;
    [|by exists e1|by exists e1].
  destruct (Hh s1) as (e2 & Ht2 & Hc2 & Hs2 & Hp2).
  exists (e1 ++ e2). rewrite Ht2, Ht1, Hs2, Hs1, app_assoc, replay_app.
  split; [reflexivity|]. split; [|split; [reflexivity|by apply Forall_app]].
  apply consistent_app. by rewrite <- Hs1.
Qed.
End Tracks.

Lemma tracks_emit (P : event -> Prop) (e : event) :
  quiet e = true -> P e -> tracks P (emit e).
Proof.
  intros Hq Hp s. exists [e]. simpl.
  destruct (quiet_record (seen_ids s) e Hq) as [Hr Ha].
  unfold replay. simpl. rewrite Hr. repeat split; auto.
Qed.

Lemma tracks_for_each {A} (P : event -> Prop) (l : list A)
    (body : A -> M unit) :
  (forall x, x ∈ l -> tracks P (body x)) -> tracks P (for_each l body).
Proof.
  induction l as [|x l IH]; intros Hbody; simpl.
  - apply tracks_mret.
  - apply tracks_bind; [apply Hbody; left|].
    intros _ _. apply IH. intros y Hy. apply Hbody. by right.
Qed.

Lemma tracks_weaken {A} (P Q : event -> Prop) (m : M A) :
  (forall e, P e -> Q e) -> tracks P m -> tracks Q m.
Proof.
  intros Hpq Hm s. destruct (Hm s) as (evs & Ht & Hc & Hs & Hp).
  exists evs. repeat split; auto. eapply Forall_impl; eauto.
Qed.

(** ** One tick *)

(** [publish_tick], case by case. *)
Lemma publish_tick_spec (cfg : Config) (clk : clock) (symbol : str)
    (io : TickIO) (s : state) :
  publish_tick cfg clk symbol io s =
  let key := article_key (tick io) in
  if decide (key ∈ seen_ids s) then (Returns tt, logged s (AlreadySeen key))
  else
    match short_time_ago clk (timeStamp (tick io)) with
    | Raises e => (Raises e, logged s (RenderRaised symbol (tick io)))
    | Returns _ =>
      if article_interrupted cfg io then (Raises Interrupt, s)
      else
        match print_block io with
        | Returns _ =>
          (Returns tt,
           {| seen_ids := {[ key ]} ∪ seen_ids s; req_id := req_id s;
              trace := trace s ++ article_log cfg io
                         ++ [Published symbol (tick io)
                               (block_text cfg clk symbol io)]
                         ++ telegram_log cfg clk symbol (tick io) |})
        | Raises e =>
          (Raises e,
           {| seen_ids := seen_ids s; req_id := req_id s;
              trace := trace s ++ article_log cfg io
                         ++ [PrintRaised symbol (tick io)] |})
        end
    end.
Proof.
  unfold publish_tick, article_log, telegram_log, block_text, article_lines,
    article_interrupted, header_lines, format_block, logged.
  unfold mbind, M_bind, get_seen. cbv zeta.
  destruct (decide (article_key (tick io) ∈ seen_ids s)); [reflexivity|].
  unfold try_except, call, print, post_to_telegram, emit, add_seen, mret,
    M_ret, mbind, M_bind.
  destruct (short_time_ago clk (timeStamp (tick io))) as [e|ago];
    [reflexivity|].
  destruct (FETCH_ARTICLE_BODY cfg), (reqNewsArticle io) as [[|]|body],
    (print_block io) as [e|[]], (telegram cfg);
    cbn [fst snd seen_ids req_id trace andb];
    rewrite ?app_nil_r, <- ?app_assoc; reflexivity.
Qed.

Lemma new_events_app (before evs : list event) :
  new_events before (before ++ evs) = evs.
Proof. apply drop_app_length. Qed.

Lemma article_log_quiet (cfg : Config) (io : TickIO) :
  Forall (fun e => quiet e = true) (article_log cfg io).
Proof.
  unfold article_log.
  destruct (FETCH_ARTICLE_BODY cfg), (reqNewsArticle io); repeat constructor.
Qed.

Lemma telegram_log_quiet (cfg : Config) (clk : clock) (symbol : str)
    (nt : NewsTick) :
  Forall (fun e => quiet e = true) (telegram_log cfg clk symbol nt).
Proof.
  unfold telegram_log.
  destruct (telegram cfg), (short_time_ago clk (timeStamp nt));
    repeat constructor.
Qed.

Lemma quiet_from (P : event -> Prop) (evs : list event) :
  (forall e, quiet e = true -> P e) ->
  Forall (fun e => quiet e = true) evs -> Forall P evs.
Proof. intros HP Hq. eapply Forall_impl; [exact Hq|exact HP]. Qed.

Lemma quiet_from_ticks (symbol : str) (ticks : list TickIO) (e : event) :
  quiet e = true -> from_ticks symbol ticks e.
Proof. destruct e; simpl; try discriminate; auto. Qed.

Lemma consistent_around (seen0 : gset str) (pre post : list event) (e : event) :
  Forall (fun e => quiet e = true) pre ->
  Forall (fun e => quiet e = true) post ->
  allowed seen0 e ->
  consistent seen0 (pre ++ [e] ++ post) /\
  replay seen0 (pre ++ [e] ++ post) = record seen0 e.
Proof.
  intros Hpre Hpost Ha.
  destruct (quiet_consistent seen0 pre Hpre) as [Hc1 Hr1].
  destruct (quiet_consistent (record seen0 e) post Hpost) as [Hc2 Hr2].
  split.
  - apply consistent_app. split; [exact Hc1|]. rewrite Hr1. simpl. auto.
  - rewrite replay_app, Hr1. exact Hr2.
Qed.

Lemma tracks_publish_tick (cfg : Config) (clk : clock) (symbol : str)
    (ticks : list TickIO) (io : TickIO) :
  io ∈ ticks ->
  tracks (from_ticks symbol ticks) (publish_tick cfg clk symbol io).
Proof.
  intros Hin s. rewrite publish_tick_spec. cbv zeta.
  destruct (decide (article_key (tick io) ∈ seen_ids s)) as [Hseen|Hnew].
  { exists [AlreadySeen (article_key (tick io))]. simpl.
    repeat split; auto. repeat constructor. }
  destruct (short_time_ago clk (timeStamp (tick io))) as [e|ago].
  { exists [RenderRaised symbol (tick io)]. simpl.
    repeat split; auto. repeat constructor. }
  destruct (article_interrupted cfg io).
  { exists []. simpl. rewrite app_nil_r. repeat split; constructor. }
  destruct (print_block io) as [e|[]]; simpl.
  - exists (article_log cfg io ++ [PrintRaised symbol (tick io)] ++ []).
    destruct (consistent_around (seen_ids s) (article_log cfg io) []
                (PrintRaised symbol (tick io))) as [Hc Hr];
      [apply article_log_quiet|constructor|exact Hnew|].
    rewrite Hr. repeat split; auto.
    apply Forall_app. split.
    + eapply quiet_from; [apply quiet_from_ticks|apply article_log_quiet].
    + repeat constructor.
  - exists (article_log cfg io
            ++ [Published symbol (tick io) (block_text cfg clk symbol io)]
            ++ telegram_log cfg clk symbol (tick io)).
    destruct (consistent_around (seen_ids s) (article_log cfg io)
                (telegram_log cfg clk symbol (tick io))
                (Published symbol (tick io) (block_text cfg clk symbol io)))
      as [Hc Hr];
      [apply article_log_quiet|apply telegram_log_quiet|exact Hnew|].
    rewrite Hr. repeat split; auto.
    apply Forall_app. split;
      [eapply quiet_from; [apply quiet_from_ticks|apply article_log_quiet]|].
    apply Forall_app. split;
      [|eapply quiet_from; [apply quiet_from_ticks|apply telegram_log_quiet]].
    repeat constructor. simpl. eauto.
Qed.

Lemma tracks_publish_ticks (cfg : Config) (clk : clock) (symbol : str)
    (ticks : list TickIO) :
  tracks (from_ticks symbol ticks) (publish_ticks cfg clk symbol ticks).
Proof.
  apply tracks_for_each. intros io Hio. by apply tracks_publish_tick.
Qed.

(** ** One symbol *)

Lemma tracks_set_req_id (P : event -> Prop) (n : Z) : tracks P (set_req_id n).
Proof.
  intros s. exists []. simpl. rewrite app_nil_r. repeat split; constructor.
Qed.

(** [fetch_symbol], case by case. *)
Lemma fetch_symbol_spec (cfg : Config) (clk : clock) (ib : Gateway)
    (symbol : str) (c : Contract) (s : state) :
  fetch_symbol cfg clk ib (symbol, c) s =
  match qualified_contract ib symbol c with
  | Raises Exception => (Returns tt, logged s (SymbolFailed symbol))
  | Raises Interrupt => (Raises Interrupt, s)
  | Returns None => (Returns tt, logged s (Unqualified symbol))
  | Returns (Some c0) =>
    let s0 := logged s (Requested symbol (req_id s) (conId c0)) in
    match reqHistoricalNews (ib symbol) with
    | Raises Exception => (Returns tt, logged s0 (SymbolFailed symbol))
    | Raises Interrupt => (Raises Interrupt, s0)
    | Returns [] =>
      (Returns tt, with_req_id (req_id s + 1) (logged s0 (NoNews symbol)))
    | Returns (io :: ticks) =>
      match publish_ticks cfg clk symbol (io :: ticks) s0 with
      | (Raises Exception, s1) => (Returns tt, logged s1 (SymbolFailed symbol))
      | (Raises Interrupt, s1) => (Raises Interrupt, s1)
      | (Returns _, s1) => (Returns tt, with_req_id (req_id s + 1) s1)
      end
    end
  end.
Proof.
  unfold fetch_symbol, qualified_contract, try_except, logged, with_req_id.
  unfold mbind, M_bind, mret, M_ret, get_req_id, emit, call, set_req_id.
  destruct (conId c =? 0);
    [destruct (qualifyContracts (ib symbol)) as [[|]|[|c' details]]|];
    cbn [fst snd head trace seen_ids req_id]; try reflexivity;
    (destruct (reqHistoricalNews (ib symbol)) as [[|]|[|io ticks]];
     cbn [fst snd head trace seen_ids req_id]; try reflexivity;
     match goal with
     | |- context [publish_ticks ?a ?b ?c ?d ?e] =>
       destruct (publish_ticks a b c d e) as [[[|]|[]] s1]
     end; reflexivity).
Qed.

Lemma tracks_fetch_symbol (cfg : Config) (clk : clock) (ib : Gateway)
    (entry : str * Contract) :
  tracks (from_ticks entry.1 (upstream_ticks ib entry.1))
         (fetch_symbol cfg clk ib entry).
Proof.
  destruct entry as [symbol contract]. simpl. unfold fetch_symbol.
  apply tracks_try_except; [|by apply tracks_emit].
  apply tracks_bind.
  { destruct (conId contract =? 0); [|apply tracks_mret].
    apply tracks_bind; [apply tracks_call|]. intros; apply tracks_mret. }
  intros [c|] _; [|by apply tracks_emit].
  apply tracks_bind; [by apply tracks_silent|]. intros n _.
  apply tracks_bind; [by apply tracks_emit|]. intros _ _.
  apply tracks_bind; [apply tracks_call|]. intros ticks [s Hs].
  unfold call in Hs. simpl in Hs.
  assert (Hup : upstream_ticks ib symbol = ticks)
    by (unfold upstream_ticks; by rewrite Hs).
  rewrite Hup.
  destruct ticks as [|io ticks].
  - apply tracks_bind; [by apply tracks_emit|]. intros. apply tracks_set_req_id.
  - apply tracks_bind; [apply tracks_publish_ticks|].
    intros. apply tracks_set_req_id.
Qed.

(** ** One cycle *)

Lemma for_each_cons {A} (body : A -> M unit) (x : A) (l : list A) (s : state) :
  for_each (x :: l) body s
  = match body x s with
    | (Returns _, s1) => for_each l body s1
    | (Raises e, s1) => (Raises e, s1)
    end.
Proof. reflexivity. Qed.

Lemma for_each_app {A} (body : A -> M unit) (l1 l2 : list A) (s : state) :
  for_each (l1 ++ l2) body s
  = match for_each l1 body s with
    | (Returns _, s1) => for_each l2 body s1
    | (Raises e, s1) => (Raises e, s1)
    end.
Proof.
  revert s. induction l1 as [|x l1 IH]; intros s; [reflexivity|].
  simpl app. rewrite !for_each_cons.
  destruct (body x s) as [[e|[]] s1]; [reflexivity|apply IH].
Qed.


Lemma run_symbols_app (cfg : Config) (clk : clock) (ib : Gateway)
    (l1 l2 : list (str * Contract)) (s : state) :
  (for_each l1 (fetch_symbol cfg clk ib) s).1 = Returns tt ->
  for_each (l1 ++ l2) (fetch_symbol cfg clk ib) s
  = for_each l2 (fetch_symbol cfg clk ib) (run_symbols cfg clk ib l1 s).
Proof.
  intros Hr. rewrite for_each_app. unfold run_symbols.
  destruct (for_each l1 (fetch_symbol cfg clk ib) s) as [[e|[]] s1];
    [discriminate|reflexivity].
Qed.

Lemma fetch_and_publish_news_run (cfg : Config) (clk : clock) (ib : Gateway)
    (contracts : list (str * Contract)) (s : state) :
  fetch_and_publish_news cfg clk ib contracts s
  = for_each contracts (fetch_symbol cfg clk ib) (with_req_id 1000 s).
Proof. reflexivity. Qed.

Lemma from_ticks_gateway (ib : Gateway) (contracts : list (str * Contract))
    (entry : str * Contract) (e : event) :
  entry ∈ contracts ->
  from_ticks entry.1 (upstream_ticks ib entry.1) e ->
  from_gateway ib contracts e.
Proof.
  destruct entry as [symbol c]. intros Hin. destruct e; simpl; auto.
  intros [-> (io & Hio & Hnt)]. eauto.
Qed.

Lemma tracks_cycle (cfg : Config) (clk : clock) (ib : Gateway)
    (contracts : list (str * Contract)) :
  tracks (from_gateway ib contracts)
         (fetch_and_publish_news cfg clk ib contracts).
Proof.
  apply tracks_bind; [apply tracks_set_req_id|]. intros _ _.
  apply tracks_for_each. intros entry Hin.
  eapply tracks_weaken; [|apply tracks_fetch_symbol].
  intros e. by apply from_ticks_gateway.
Qed.

(** What a cycle appends fits the seen set it started from, replays to
    the seen set it leaves, and was served by the gateway. *)
Lemma cycle_events_spec (cfg : Config) (clk : clock) (ib : Gateway)
    (contracts : list (str * Contract)) (s : state) :
  let s' := (fetch_and_publish_news cfg clk ib contracts s).2 in
  let evs := cycle_events cfg clk ib contracts s in
  trace s' = trace s ++ evs /\
  consistent (seen_ids s) evs /\
  seen_ids s' = replay (seen_ids s) evs /\
  Forall (from_gateway ib contracts) evs.
Proof.
  cbv zeta. unfold cycle_events.
  destruct (tracks_cycle cfg clk ib contracts s) as (evs & Ht & Hc & Hs & Hp).
  rewrite Ht, new_events_app. auto.
Qed.

Lemma cycle_events_run (cfg : Config) (clk : clock) (ib : Gateway)
    (contracts : list (str * Contract)) (s : state) (evs : list event) :
  trace (run_symbols cfg clk ib contracts (with_req_id 1000 s))
  = trace s ++ evs ->
  cycle_events cfg clk ib contracts s = evs.
Proof.
  intros Ht. unfold cycle_events. rewrite fetch_and_publish_news_run.
  fold (run_symbols cfg clk ib contracts (with_req_id 1000 s)).
  rewrite Ht. apply new_events_app.
Qed.

(** ** Which exceptions there are *)

Lemma short_time_ago_exception (clk : clock) (ts : option Z) (e : exn) :
  short_time_ago clk ts = Raises e -> e = Exception.
Proof.
  unfold short_time_ago. destruct ts as [t|]; [|discriminate].
  destruct (t =? 0); [discriminate|].
  unfold fromtimestamp, now.
  destruct (local_datetime clk (t * 1000000)) as [e1|dt] eqn:Hdt.
  { intros Heq. apply local_datetime_raises in Hdt as [-> _]. congruence. }
  destruct (local_datetime clk (time_us clk)) as [e2|current] eqn:Hnow.
  { intros Heq. apply local_datetime_raises in Hnow as [-> _]. congruence. }
  cbv zeta.
  repeat match goal with
         | |- context [if ?b then _ else _] => destruct b
         end; discriminate.
Qed.

Lemma publish_tick_calm (cfg : Config) (clk : clock) (symbol : str)
    (io : TickIO) (s : state) :
  calm_tick io = true ->
  (publish_tick cfg clk symbol io s).1 <> Raises Interrupt.
Proof.
  intros Hcalm. rewrite publish_tick_spec. cbv zeta.
  destruct (decide (article_key (tick io) ∈ seen_ids s)); [discriminate|].
  destruct (short_time_ago clk (timeStamp (tick io))) as [e|ago] eqn:Hago.
  { apply short_time_ago_exception in Hago as ->. discriminate. }
  unfold calm_tick, article_interrupted in *.
  destruct (FETCH_ARTICLE_BODY cfg), (reqNewsArticle io) as [[|]|body],
    (print_block io) as [[|]|[]]; simpl; discriminate.
Qed.

Lemma publish_ticks_calm (cfg : Config) (clk : clock) (symbol : str)
    (ticks : list TickIO) (s : state) :
  forallb calm_tick ticks = true ->
  (publish_ticks cfg clk symbol ticks s).1 <> Raises Interrupt.
Proof.
  unfold publish_ticks. revert s.
  induction ticks as [|io ticks IH]; intros s Hcalm; [discriminate|].
  simpl in Hcalm. apply andb_true_iff in Hcalm as [Hio Hrest].
  rewrite for_each_cons.
  pose proof (publish_tick_calm cfg clk symbol io s Hio) as Hne.
  destruct (publish_tick cfg clk symbol io s) as [[e|[]] s1];
    [exact Hne|by apply IH].
Qed.

(** [except Exception] at the symbol level lets no [Exception] through,
    and with no interrupt the turn of the symbol returns. *)
Lemma fetch_symbol_no_exception (cfg : Config) (clk : clock) (ib : Gateway)
    (entry : str * Contract) (s : state) :
  (fetch_symbol cfg clk ib entry s).1 <> Raises Exception.
Proof.
  destruct entry as [symbol c]. rewrite fetch_symbol_spec.
  destruct (qualified_contract ib symbol c) as [[|]|[c0|]]; try discriminate.
  cbv zeta.
  destruct (reqHistoricalNews (ib symbol)) as [[|]|[|io ticks]];
    try discriminate.
  destruct (publish_ticks cfg clk symbol (io :: ticks) _) as [[[|]|[]] s1];
    discriminate.
Qed.

Lemma fetch_symbol_calm (cfg : Config) (clk : clock) (ib : Gateway)
    (entry : str * Contract) (s : state) :
  calm ib entry = true ->
  (fetch_symbol cfg clk ib entry s).1 = Returns tt.
Proof.
  destruct entry as [symbol c]. unfold calm. cbn [fst].
  intros Hcalm. rewrite fetch_symbol_spec. unfold qualified_contract.
  destruct (conId c =? 0), (qualifyContracts (ib symbol)) as [[|]|[|c' l]],
    (reqHistoricalNews (ib symbol)) as [[|]|[|io ticks]];
    try discriminate; try reflexivity; cbn [head]; cbv zeta;
    match goal with
    | |- context [publish_ticks ?a ?b ?c ?d ?e] =>
      pose proof (publish_ticks_calm a b c d e Hcalm) as Hne;
      destruct (publish_ticks a b c d e) as [[[|]|[]] s1]
    end; try reflexivity; contradiction.
Qed.

Lemma run_symbols_calm (cfg : Config) (clk : clock) (ib : Gateway)
    (l : list (str * Contract)) (s : state) :
  Forall (fun entry => calm ib entry = true) l ->
  (for_each l (fetch_symbol cfg clk ib) s).1 = Returns tt.
Proof.
  intros Hall. revert s. induction Hall as [|entry l He _ IH]; intros s;
    [reflexivity|].
  rewrite for_each_cons.
  pose proof (fetch_symbol_calm cfg clk ib entry s He) as Hr.
  destruct (fetch_symbol cfg clk ib entry s) as [[e|[]] s1];
    [discriminate|apply IH].
Qed.

Lemma cycle_no_exception (cfg : Config) (clk : clock) (ib : Gateway)
    (contracts : list (str * Contract)) (s : state) :
  (fetch_and_publish_news cfg clk ib contracts s).1 <> Raises Exception.
Proof.
  rewrite fetch_and_publish_news_run. generalize (with_req_id 1000 s).
  induction contracts as [|entry l IH]; intros s0; [discriminate|].
  rewrite for_each_cons.
  pose proof (fetch_symbol_no_exception cfg clk ib entry s0) as Hne.
  destruct (fetch_symbol cfg clk ib entry s0) as [[[|]|[]] s1];
    [contradiction|discriminate|apply IH].
Qed.

(** ** Symbols whose turn goes through *)





Lemma served_keys_fetched (ib : Gateway) (contracts : list (str * Contract)) :
  served_keys (fetched ib contracts) = upstream_keys ib contracts.
Proof.
  unfold fetched, upstream_keys, served_keys.
  induction contracts as [|entry l IH]; [reflexivity|].
  simpl. rewrite List.map_app, IH, List.map_map. reflexivity.
Qed.

Lemma article_log_item (cfg : Config) (io : TickIO) :
  Forall (fun e => symbol_event e = false) (article_log cfg io).
Proof.
  unfold article_log.
  destruct (FETCH_ARTICLE_BODY cfg), (reqNewsArticle io); repeat constructor.
Qed.

Lemma telegram_log_item (cfg : Config) (clk : clock) (symbol : str)
    (nt : NewsTick) :
  Forall (fun e => symbol_event e = false) (telegram_log cfg clk symbol nt).
Proof.
  unfold telegram_log.
  destruct (telegram cfg), (short_time_ago clk (timeStamp nt));
    repeat constructor.
Qed.






(** ** What a run appends, whatever the state *)

Section Appends.
Context (Q : list event -> Prop).
Hypothesis Q_nil : Q [].
Hypothesis Q_app : forall a b, Q a -> Q b -> Q (a ++ b).

Lemma appends_for_each {A} (l : list A) (body : A -> M unit) :
  (forall x, appends Q (body x)) -> appends Q (for_each l body).
Proof.
  intros Hbody. induction l as [|x l IH]; intros s.
  - exists []. simpl. by rewrite app_nil_r.
  - rewrite for_each_cons.
    destruct (Hbody x s) as (e1 & Ht1 & Hq1).
    destruct (body x s) as [[e|[]] s1]; simpl in *; [by exists e1|].
    destruct (IH s1) as (e2 & Ht2 & Hq2).
    exists (e1 ++ e2). rewrite Ht2, Ht1, app_assoc. auto.
Qed.

Lemma appends_fetch_symbol (cfg : Config) (clk : clock) (ib : Gateway)
    (entry : str * Contract) :
  (forall e, symbol_event e = true -> Q [e]) ->
  (forall symbol io, appends Q (publish_tick cfg clk symbol io)) ->
  appends Q (fetch_symbol cfg clk ib entry).
Proof.
  intros Hone Htick. destruct entry as [symbol c]. intros s.
  rewrite fetch_symbol_spec.
  assert (Htwo : forall e1 e2,
            symbol_event e1 = true -> symbol_event e2 = true -> Q [e1; e2]).
  { intros e1 e2 H1 H2. apply (Q_app [e1] [e2]); auto. }
  destruct (qualified_contract ib symbol c) as [[|]|[c0|]].
  - eexists. split; [reflexivity|]. by apply Hone.
  - exists []. simpl. by rewrite app_nil_r.
  - cbv zeta. destruct (reqHistoricalNews (ib symbol)) as [[|]|[|io ticks]].
    + eexists. simpl. rewrite <- app_assoc. split; [reflexivity|].
      by apply Htwo.
    + eexists. simpl. split; [reflexivity|]. by apply Hone.
    + eexists. simpl. rewrite <- app_assoc. split; [reflexivity|].
      by apply Htwo.
    + destruct (appends_for_each (io :: ticks) (publish_tick cfg clk symbol)
                  (Htick symbol)
                  (logged s (Requested symbol (req_id s) (conId c0))))
        as (evs & Ht & Hq).
      fold (publish_ticks cfg clk symbol (io :: ticks)) in Ht.
      destruct (publish_ticks cfg clk symbol (io :: ticks) _)
        as [[[|]|[]] s1]; simpl in Ht.
      * exists ([Requested symbol (req_id s) (conId c0)] ++ evs
                ++ [SymbolFailed symbol]).
        simpl. rewrite Ht, <- !app_assoc. split; [reflexivity|].
        apply (Q_app [_]); [by apply Hone|].
        apply Q_app; [exact Hq|by apply Hone].
      * exists ([Requested symbol (req_id s) (conId c0)] ++ evs).
        simpl. rewrite Ht, <- !app_assoc. split; [reflexivity|].
        apply (Q_app [_]); [by apply Hone|exact Hq].
      * exists ([Requested symbol (req_id s) (conId c0)] ++ evs).
        simpl. rewrite Ht, <- !app_assoc. split; [reflexivity|].
        apply (Q_app [_]); [by apply Hone|exact Hq].
  - eexists. split; [reflexivity|]. by apply Hone.
Qed.

Lemma appends_cycle (cfg : Config) (clk : clock) (ib : Gateway)
    (contracts : list (str * Contract)) (s : state) :
  (forall e, symbol_event e = true -> Q [e]) ->
  (forall symbol io, appends Q (publish_tick cfg clk symbol io)) ->
  Q (cycle_events cfg clk ib contracts s).
Proof.
  intros Hone Htick.
  destruct (appends_for_each contracts (fetch_symbol cfg clk ib)
              (fun entry => appends_fetch_symbol cfg clk ib entry Hone Htick)
              (with_req_id 1000 s)) as (evs & Ht & Hq).
  by rewrite (cycle_events_run cfg clk ib contracts s evs Ht).
Qed.
End Appends.

Lemma run_symbols_extends (cfg : Config) (clk : clock) (ib : Gateway)
    (l : list (str * Contract)) (s : state) :
  exists evs, trace (run_symbols cfg clk ib l s) = trace s ++ evs /\
              seen_ids s ⊆ seen_ids (run_symbols cfg clk ib l s).
Proof.
  assert (Ht : tracks (fun _ => True) (for_each l (fetch_symbol cfg clk ib))).
  { apply tracks_for_each. intros entry _.
    eapply tracks_weaken; [|apply tracks_fetch_symbol]. auto. }
  destruct (Ht s) as (evs & Htr & _ & Hs & _).
  exists evs. unfold run_symbols. split; [exact Htr|].
  rewrite Hs. apply replay_subseteq.
Qed.

(** What a cycle appends holds no event of the scheduler. *)
Lemma cycle_events_no_turn (cfg : Config) (clk : clock) (ib : Gateway)
    (contracts : list (str * Contract)) (s : state) :
  Forall (fun e => turn_event e = false) (cycle_events cfg clk ib contracts s).
Proof.
  apply (appends_cycle (Forall (fun e => turn_event e = false))).
  - constructor.
  - intros a b Ha Hb. by apply Forall_app.
  - intros [] He; try discriminate; repeat constructor.
  - intros symbol io s0. rewrite publish_tick_spec. cbv zeta.
    assert (Hlog : Forall (fun e => turn_event e = false) (article_log cfg io)).
    { unfold article_log.
      destruct (FETCH_ARTICLE_BODY cfg), (reqNewsArticle io);
        repeat constructor. }
    assert (Htg : Forall (fun e => turn_event e = false)
                         (telegram_log cfg clk symbol (tick io))).
    { unfold telegram_log.
      destruct (telegram cfg), (short_time_ago clk (timeStamp (tick io)));
        repeat constructor. }
    destruct (decide (article_key (tick io) ∈ seen_ids s0)).
    { eexists. split; [reflexivity|]. repeat constructor. }
    destruct (short_time_ago clk (timeStamp (tick io))).
    { eexists. split; [reflexivity|]. repeat constructor. }
    destruct (article_interrupted cfg io).
    { exists []. simpl. rewrite app_nil_r. split; [reflexivity|constructor]. }
    destruct (print_block io) as [e|[]]; eexists;
      (split; [reflexivity|]);
      repeat (apply Forall_app; split); auto; repeat constructor.
Qed.

(** ** Dedup *)








(** ** Two runs *)

(** Whatever the gateway answers and whatever fails, two runs in a row
    never publish a key twice. *)
Lemma two_runs_no_key_twice (cfg : Config) (clk1 clk2 : clock)
    (ib1 ib2 : Gateway) (contracts1 contracts2 : list (str * Contract))
    (s : state) :
  let s1 := (fetch_and_publish_news cfg clk1 ib1 contracts1 s).2 in
  NoDup (published_keys (cycle_events cfg clk1 ib1 contracts1 s
                           ++ cycle_events cfg clk2 ib2 contracts2 s1)).
Proof.
  cbv zeta.
  destruct (cycle_events_spec cfg clk1 ib1 contracts1 s) as (_ & Hc1 & Hs1 & _).
  destruct (cycle_events_spec cfg clk2 ib2 contracts2
              (fetch_and_publish_news cfg clk1 ib1 contracts1 s).2)
    as (_ & Hc2 & _ & _).
  rewrite Hs1 in Hc2.
  apply (consistent_published (seen_ids s)), consistent_app. auto.
Qed.





(** ** Failures and their reach *)




(** ** The scheduler's turns *)

Lemma qualify_all_spec (io : CycleIO) (d : list (str * Contract)) :
  (qualify_all io d).2.*1 = d.*1 /\
  (qualify_all io d).1 <> Raises Exception.
Proof.
  induction d as [|[sym c] d [IHk IHr]]; [split; [reflexivity|discriminate]|].
  cbn [qualify_all].
  destruct (requalify io sym) as [[|]|[|c' l]];
    try (split; [reflexivity|discriminate]);
    destruct (qualify_all io d) as [r rest]; cbn [fst snd] in *;
    rewrite !fmap_cons, IHk; auto.
Qed.

(** What a turn appends fits the seen set it started from and replays to
    the seen set it leaves; the symbols of the contracts stay; and when
    the turn logged its save, the file lists the seen set. *)
Lemma main_iteration_spec (cfg : Config) (io : CycleIO) (p : process) :
  let p' := (main_iteration cfg io p).2 in
  let evs := iteration_events cfg io p in
  output p' = output p ++ evs /\
  consistent (seen p) evs /\
  seen p' = replay (seen p) evs /\
  (contracts p').*1 = (contracts p).*1 /\
  (Saved ∈ evs -> path p' = File (write_lines (sorted (seen p')))).
Proof.
  cbv zeta. unfold iteration_events, main_iteration, main_iteration_body.
  destruct (qualify_all_spec io (contracts p)) as [Hkeys Hq].
  destruct (qualify_all io (contracts p)) as [q contracts'].
  cbn [fst snd] in Hkeys, Hq.
  destruct q as [[|]|[]]; [contradiction| |].
  { cbn [fst snd output seen path Scheduler.contracts].
    unfold new_events. rewrite drop_all, app_nil_r.
    repeat split; auto. intros Hin. inversion Hin. }
  destruct (cycle_events_spec cfg (cycle_clock io) (gateway io) contracts'
              (cycle_start p)) as (Ht & Hc & Hs & _).
  pose proof (cycle_events_no_turn cfg (cycle_clock io) (gateway io)
                contracts' (cycle_start p)) as Hno.
  pose proof (cycle_no_exception cfg (cycle_clock io) (gateway io) contracts'
                (cycle_start p)) as Hne.
  set (evs := cycle_events cfg (cycle_clock io) (gateway io) contracts'
                (cycle_start p)) in *.
  destruct (fetch_and_publish_news cfg (cycle_clock io) (gateway io)
              contracts' (cycle_start p)) as [r s].
  cbn [fst snd] in Ht, Hc, Hs, Hne. simpl in Ht, Hc, Hs.
  assert (Hnot : Saved ∉ evs).
  { intros Hin. rewrite Forall_forall in Hno. by specialize (Hno _ Hin). }
  assert (Hplain : forall file,
            let p1 := {| seen := seen_ids s; path := file;
                         contracts := contracts'; output := trace s |} in
            output p1 = output p ++ new_events (output p) (output p1) /\
            consistent (seen p) (new_events (output p) (output p1)) /\
            seen p1 = replay (seen p) (new_events (output p) (output p1)) /\
            (contracts p1).*1 = (contracts p).*1 /\
            (Saved ∈ new_events (output p) (output p1) ->
             path p1 = File (write_lines (sorted (seen p1))))).
  { intros file. simpl. rewrite Ht, new_events_app.
    repeat split; auto. intros Hin. contradiction. }
  assert (Hmore : forall file tail,
            Forall (fun e => quiet e = true) tail ->
            (Saved ∈ tail -> file = File (write_lines (sorted (seen_ids s)))) ->
            let p1 := {| seen := seen_ids s; path := file;
                         contracts := contracts';
                         output := trace s ++ tail |} in
            output p1 = output p ++ new_events (output p) (output p1) /\
            consistent (seen p) (new_events (output p) (output p1)) /\
            seen p1 = replay (seen p) (new_events (output p) (output p1)) /\
            (contracts p1).*1 = (contracts p).*1 /\
            (Saved ∈ new_events (output p) (output p1) ->
             path p1 = File (write_lines (sorted (seen p1))))).
  { intros file tail Hquiet Hfile. simpl.
    rewrite Ht, <- app_assoc, new_events_app.
    destruct (quiet_consistent (replay (seen p) evs) tail Hquiet) as [Hqc Hqr].
    split; [reflexivity|]. split; [by apply consistent_app|].
    split; [by rewrite replay_app, Hqr|]. split; [exact Hkeys|].
    intros Hin. apply elem_of_app in Hin as [Hin|Hin]; [contradiction|auto]. }
  destruct r as [[|]|[]]; [contradiction|apply Hplain|].
  destruct (save_seen_ids (path p) (seen_ids s)) as [w file] eqn:Hsave.
  assert (Hfile : w = Returns tt ->
                  file = File (write_lines (sorted (seen_ids s)))).
  { intros ->. destruct (path p); simpl in Hsave; congruence. }
  destruct w as [[|]|[]].
  - apply (Hmore file [IterationFailed]); [repeat constructor|].
    intros Hin. apply list_elem_of_singleton in Hin. discriminate.
  - apply Hplain.
  - destruct (sleep io) as [[|]|[]].
    + unfold noted. cbn [fst snd output seen path Scheduler.contracts].
      rewrite <- app_assoc.
      apply (Hmore file ([Saved] ++ [IterationFailed]));
        [repeat constructor|auto].
    + apply (Hmore file [Saved]); [repeat constructor|auto].
    + apply (Hmore file [Saved]); [repeat constructor|auto].
Qed.

Lemma main_loop_cons (cfg : Config) (io : CycleIO) (ios : list CycleIO)
    (p : process) :
  main_loop cfg (io :: ios) p
  = match main_iteration cfg io p with
    | (Returns _, p') => main_loop cfg ios p'
    | r => r
    end.
Proof. reflexivity. Qed.

Lemma main_loop_spec (cfg : Config) (ios : list CycleIO) (p : process) :
  let p' := (main_loop cfg ios p).2 in
  let evs := lifetime_events cfg ios p in
  output p' = output p ++ evs /\
  consistent (seen p) evs /\
  seen p' = replay (seen p) evs /\
  (contracts p').*1 = (contracts p).*1.
Proof.
  cbv zeta. unfold lifetime_events. revert p.
  induction ios as [|io ios IH]; intros p.
  - simpl. unfold new_events. rewrite drop_all. rewrite app_nil_r.
    repeat split; constructor.
  - rewrite main_loop_cons.
    destruct (main_iteration_spec cfg io p) as (Ht1 & Hc1 & Hs1 & Hk1 & _).
    cbv zeta in Ht1, Hc1, Hs1, Hk1.
    set (evs1 := iteration_events cfg io p) in *.
    destruct (main_iteration cfg io p) as [[e|[]] p1]; cbn [fst snd] in *.
    + rewrite Ht1, new_events_app. auto.
    + destruct (IH p1) as (Ht2 & Hc2 & Hs2 & Hk2).
      set (evs2 := new_events (output p1) (output (main_loop cfg ios p1).2))
        in *.
      assert (Hout : output (main_loop cfg ios p1).2
                     = output p ++ evs1 ++ evs2)
        by (rewrite Ht2, Ht1; apply eq_sym, app_assoc).
      rewrite Hout, new_events_app.
      split; [reflexivity|]. split; [|split].
      * apply consistent_app. by rewrite <- Hs1.
      * by rewrite replay_app, <- Hs1.
      * by rewrite Hk2.
Qed.

(** C2, as the code has it.  When [publish_tick] returns, the key of its
    tick is in the seen set, before the next tick is taken up; when it
    raises, the seen set is as it was.  If in one turn of the loop the
    block of [X] reaches the console, later the header or the console
    write of [Y] raises, and the turn comes to its save, then the file
    lists the seen set, which holds the key of [X], and does not hold the
    key of [Y] unless a later item with that key was published in the
    same turn. *)
Theorem seen_after_failed_publish (cfg : Config) (io : CycleIO)
    (p : process) (e1 e2 e3 : list event)
    (sx : str) (X Y : NewsTick) (tx : str) (f : event) :
  iteration_events cfg io p = e1 ++ Published sx X tx :: e2 ++ f :: e3 ->
  publish_failure f = Some Y ->
  Saved ∈ e3 ->
  article_key Y ∉ published_keys e3 ->
  let p' := (main_iteration cfg io p).2 in
  path p' = File (write_lines (sorted (seen p'))) /\
  (article_key X ∈ seen p') /\
  (article_key Y ∉ seen p') /\
  (article_key X ∈ sorted (seen p')) /\
  (article_key Y ∉ sorted (seen p')) /\
  (forall symbol io0 s0,
     let r := publish_tick cfg (cycle_clock io) symbol io0 s0 in
     (r.1 = Returns tt -> article_key (tick io0) ∈ seen_ids r.2) /\
     (forall e, r.1 = Raises e -> seen_ids r.2 = seen_ids s0)).
Proof.
  intros Hev Hf Hsaved Hlater p'.
  destruct (main_iteration_spec cfg io p) as (_ & Hc & Hs & _ & Hp).
  fold p' in Hs, Hp. rewrite Hev in Hc, Hs, Hp.
  assert (HX : article_key X ∈ seen p').
  { rewrite Hs, replay_published, published_keys_app.
    unfold published_keys at 2. simpl. set_solver. }
  assert (HY : article_key Y ∉ seen p').
  { rewrite app_comm_cons, app_assoc in Hc, Hs.
    destruct (consistent_failed _ _ _ _ _ Hf Hc) as [Hnot Hnone].
    rewrite replay_app in Hs. rewrite Hs.
    rewrite (replay_published _ (f :: e3)).
    assert (Hpk : published_keys (f :: e3) = published_keys e3)
      by (unfold published_keys; simpl; by rewrite Hnone).
    rewrite Hpk. set_solver. }
  split.
  { apply Hp. rewrite elem_of_app, elem_of_cons, elem_of_app, elem_of_cons.
    auto. }
  split; [exact HX|]. split; [exact HY|].
  split; [by apply sorted_elem_of|]. split; [by rewrite sorted_elem_of|].
  intros symbol io0 s0. cbv zeta. rewrite publish_tick_spec. cbv zeta.
  destruct (decide (article_key (tick io0) ∈ seen_ids s0));
    [split; [auto|discriminate]|].
  destruct (short_time_ago (cycle_clock io) (timeStamp (tick io0)));
    [split; [discriminate|reflexivity]|].
  destruct (article_interrupted cfg io0);
    [split; [discriminate|reflexivity]|].
  destruct (print_block io0) as [e|[]]; simpl;
    (split; [try discriminate|try discriminate; auto]).
  intros _. set_solver.
Qed.

Lemma seen_after_failed_publish_witness :
  article_key brn2
    ∉ seen (main_iteration plain
              (turn (serves [(AAPL, [good brn1; failing brn2])]))
              (started ∅)).2.
Proof.
  assert (Hev : iteration_events plain
                  (turn (serves [(AAPL, [good brn1; failing brn2])]))
                  (started ∅)
                = [Requested AAPL 1000 265598]
                    ++ Published AAPL brn1 (text_of "AAPL" "A")
                    :: [] ++ PrintRaised AAPL brn2
                    :: [SymbolFailed AAPL; Requested TSLA 1000 76792991;
                        NoNews TSLA; Saved])
    by (vm_compute; reflexivity).
  assert (Hf : publish_failure (PrintRaised AAPL brn2) = Some brn2)
    by reflexivity.
  assert (Hsaved : Saved ∈ [SymbolFailed AAPL; Requested TSLA 1000 76792991;
                            NoNews TSLA; Saved])
    by (do 3 right; left).
  assert (Hlater : article_key brn2
                     ∉ published_keys
                         [SymbolFailed AAPL; Requested TSLA 1000 76792991;
                          NoNews TSLA; Saved])
    by (intros Hin; inversion Hin).
  exact (proj1 (proj2 (proj2
           (seen_after_failed_publish _ _ _ _ _ _ _ _ _ _ _
              Hev Hf Hsaved Hlater)))).
Defined.

(** C2, as stated, fails when the key of [Y] comes again under a later
    symbol and is published there: the block of BRN:1 is written, the
    write for BRN:2 raises under AAPL, and the saved file yet lists
    BRN:2. *)
Lemma failed_publish_key_saved_later :
  let p' := (main_iteration plain
               (turn (serves [(AAPL, [good brn1; failing brn2]);
                              (TSLA, [good brn2])]))
               (started ∅)).2 in
  output p'
    = [Requested AAPL 1000 265598;
       Published AAPL brn1 (text_of "AAPL" "A");
       PrintRaised AAPL brn2;
       SymbolFailed AAPL;
       Requested TSLA 1000 76792991;
       Published TSLA brn2 (text_of "TSLA" "B");
       Saved] /\
  path p' = File (lit "BRN:1" ++ [LF] ++ lit "BRN:2" ++ [LF]) /\
  ~ (article_key brn2 ∉ seen p').
Proof.
  cbv zeta. split; [vm_compute; reflexivity|].
  split; [vm_compute; reflexivity|].
  intros Hnot. apply Hnot.
  assert (Hseen : seen (main_iteration plain
                          (turn (serves [(AAPL, [good brn1; failing brn2]);
                                         (TSLA, [good brn2])]))
                          (started ∅)).2
                  = {[ BRN_1; BRN_2 ]}) by (vm_compute; reflexivity).
  rewrite Hseen.
  change (article_key brn2) with BRN_2. set_solver.
Qed.

(** C10. A tick whose provider code and article id are both missing or
    empty has the key ":". Once such a tick has reached the console, the
    key is in the seen set, no later block of the process is for a tick
    of that kind, and [publish_tick] skips every such tick in every state
    whose seen set holds ":", whatever its headline. *)
Theorem keyless_ticks_share_one_key (cfg : Config) (ios : list CycleIO)
    (p : process) (e1 e2 : list event) (sx : str) (X : NewsTick) (tx : str) :
  keyless X ->
  lifetime_events cfg ios p = e1 ++ Published sx X tx :: e2 ->
  (forall Y, keyless Y -> article_key Y = lit ":") /\
  (lit ":" ∈ seen (main_loop cfg ios p).2) /\
  Forall (fun e => match e with
                   | Published _ Y _ => ~ keyless Y
                   | _ => True
                   end) e2 /\
  (forall clk symbol io s0,
     keyless (tick io) ->
     lit ":" ∈ seen_ids s0 ->
     publish_tick cfg clk symbol io s0
     = (Returns tt,
        {| seen_ids := seen_ids s0; req_id := req_id s0;
           trace := trace s0 ++ [AlreadySeen (lit ":")] |})).
Proof.
  intros HX Hev.
  destruct (main_loop_spec cfg ios p) as (_ & Hc & Hs & _).
  rewrite Hev in Hc, Hs.
  destruct (consistent_after_published _ _ _ _ _ _ Hc) as (_ & _ & _ & Hall).
  pose proof (article_key_keyless X HX) as HkX.
  split; [exact article_key_keyless|]. split.
  { rewrite Hs, replay_published, published_keys_app.
    unfold published_keys at 2. simpl. rewrite HkX. set_solver. }
  split.
  { eapply Forall_impl; [exact Hall|]. intros [] He; try exact I.
    intros HY. apply He. by rewrite HkX, (article_key_keyless _ HY). }
  intros clk symbol io s0 Hio Hin. rewrite publish_tick_spec. cbv zeta.
  rewrite (article_key_keyless _ Hio).
  destruct (decide (lit ":" ∈ seen_ids s0)); [reflexivity|contradiction].
Qed.

Lemma keyless_ticks_share_one_key_witness :
  lit ":" ∈ seen (main_loop plain
                    [turn (serves [(AAPL, [good (anonymous "first")])]);
                     turn (serves [(TSLA, [good (anonymous "second")])])]
                    (started ∅)).2.
Proof.
  assert (HX : keyless (anonymous "first")) by (split; auto).
  assert (Hev : lifetime_events plain
                  [turn (serves [(AAPL, [good (anonymous "first")])]);
                   turn (serves [(TSLA, [good (anonymous "second")])])]
                  (started ∅)
                = [Requested AAPL 1000 265598]
                    ++ Published AAPL (anonymous "first")
                         (lit "=== AAPL |  | unknown time ===" ++ [LF]
                            ++ lit "Headline: first")
                    :: [Requested TSLA 1001 76792991; NoNews TSLA; Saved;
                        Requested AAPL 1000 265598; NoNews AAPL;
                        Requested TSLA 1001 76792991; AlreadySeen (lit ":");
                        Saved])
    by (vm_compute; reflexivity).
  exact (proj1 (proj2 (keyless_ticks_share_one_key _ _ _ _ _ _ _ _ HX Hev))).
Defined.

(** * Further properties of the code *)

(** ** More on time rendering *)

(** X1. Between one minute and one day the rendering counts whole
    minutes from 1 to 59 or whole hours from 1 to 23: it never shows
    "0m ago", "60m ago" or "24h ago". *)
Theorem short_time_ago_unit_bounds (clk : clock) (t : Z)
    (dt current : datetime) :
  t <> 0 ->
  fromtimestamp clk t = Returns dt ->
  now clk = Returns current ->
  60 <= Z.quot (current - dt) 1000000 < 86400 ->
  exists n,
    (1 <= n <= 59 /\
     short_time_ago clk (Some t) = Returns (of_int n ++ lit "m ago")) \/
    (1 <= n <= 23 /\
     short_time_ago clk (Some t) = Returns (of_int n ++ lit "h ago")).
Proof.
  intros Hne Hdt Hnow Hs. unfold short_time_ago.
  destruct (Z.eqb_spec t 0) as [|_]; [contradiction|].
  rewrite Hdt, Hnow. cbv zeta.
  apply local_datetime_range in Hdt as [Hdt _].
  apply local_datetime_range in Hnow as [Hnow _].
  destruct (seconds_between current dt Hnow Hdt)
    as (_ & _ & _ & _ & _ & Hmid & _).
  rewrite (Hmid Hs).
  set (s := Z.quot (current - dt) 1000000) in *.
  destruct (Z.ltb_spec s 60); [lia|].
  destruct (Z.ltb_spec s 3600).
  - exists (s / 60). left. split; [|reflexivity]. split.
    + apply Z.div_le_lower_bound; lia.
    + apply Z.lt_succ_r, Z.div_lt_upper_bound; lia.
  - destruct (Z.ltb_spec s 86400); [|lia].
    exists (s / 3600). right. split; [|reflexivity]. split.
    + apply Z.div_le_lower_bound; lia.
    + apply Z.lt_succ_r, Z.div_lt_upper_bound; lia.
Qed.

Lemma short_time_ago_unit_bounds_witness :
  exists n,
    (1 <= n <= 59 /\
     short_time_ago utc_1700000000 (Some 1699996401)
     = Returns (of_int n ++ lit "m ago"))
    \/
    (1 <= n <= 23 /\
     short_time_ago utc_1700000000 (Some 1699996401)
     = Returns (of_int n ++ lit "h ago")).
Proof.
  assert (H0 : 1699996401 <> 0) by lia.
  assert (H1 : fromtimestamp utc_1700000000 1699996401
               = Returns 1699996401000000) by (vm_compute; reflexivity).
  assert (H2 : now utc_1700000000 = Returns 1700000000500000)
    by (vm_compute; reflexivity).
  assert (H3 : 60 <= Z.quot (1700000000500000 - 1699996401000000) 1000000
               < 86400)
    by (vm_compute; split; [discriminate|reflexivity]).
  exact (short_time_ago_unit_bounds utc_1700000000 1699996401 _ _ H0 H1 H2 H3).
Defined.

(** ** More on the seen-id file *)

(** X2. Whatever the file holds, a key that [load_seen_ids] returns is
    not empty, has no white space at either end and no line break
    inside. *)
Theorem load_yields_storable_keys (file : storage) (ids : gset str) :
  load_seen_ids file = Returns ids -> set_Forall storable ids.
Proof.
  destruct file as [|content|]; simpl; intros Heq; [| |discriminate].
  - assert (ids = ∅) by congruence. subst. intros k Hk.
    by apply not_elem_of_empty in Hk.
  - assert (Hids : ids = seen_of_text (universal_newlines false content))
      by congruence.
    subst. intros k Hk. by apply loaded_keys_storable in Hk.
Qed.

Lemma load_yields_storable_keys_witness :
  set_Forall storable ({[ BRN_1; BRN_2 ]} : gset str).
Proof.
  assert (H : load_seen_ids
                (File (lit "BRN:2" ++ [CR; LF; LF] ++ lit "  BRN:1 "))
              = Returns {[ BRN_1; BRN_2 ]}) by (vm_compute; reflexivity).
  exact (load_yields_storable_keys _ _ H).
Defined.

Lemma universal_newlines_plain (k rest : str) :
  Forall (fun c => c <> LF /\ c <> CR) k ->
  universal_newlines false (k ++ rest) = k ++ universal_newlines false rest.
Proof.
  induction 1 as [|c k [Hlf Hcr] _ IH]; [reflexivity|]. simpl.
  destruct (N.eqb_spec c CR); [contradiction|].
  destruct (N.eqb_spec c LF); [contradiction|]. by rewrite IH.
Qed.

Lemma universal_newlines_key (after_cr : bool) (k rest : str) :
  storable k ->
  universal_newlines after_cr (k ++ rest)
  = k ++ universal_newlines false rest.
Proof.
  intros ((c & Hhead & _) & _ & Hall).
  destruct k as [|x k]; [discriminate|].
  inversion Hall as [|? ? [Hlf Hcr] Hrest]; subst. simpl.
  destruct (N.eqb_spec x CR); [contradiction|].
  destruct (N.eqb_spec x LF); [contradiction|].
  by rewrite universal_newlines_plain.
Qed.

Lemma universal_newlines_lines (after_cr : bool)
    (lines : list (str * line_end)) :
  Forall (fun l => storable l.1) lines ->
  universal_newlines after_cr (lines_text lines) = write_lines lines.*1.
Proof.
  intros Hall. revert after_cr.
  induction Hall as [|[k e] lines Hk _ IH]; intros after_cr; simpl.
  - reflexivity.
  - simpl in Hk. rewrite universal_newlines_key by exact Hk.
    rewrite <- app_assoc. f_equal.
    destruct e; simpl; by rewrite IH.
Qed.

Lemma seen_of_written_lines (ks : list str) :
  Forall storable ks -> seen_of_text (write_lines ks) = list_to_set ks.
Proof.
  intros Hall. rewrite Forall_forall in Hall. unfold seen_of_text.
  rewrite readlines_write_lines.
  2:{ apply Forall_forall. intros k Hk. apply Forall_forall. intros c Hc.
      destruct (Hall k Hk) as (_ & _ & Hcs).
      rewrite Forall_forall in Hcs. apply (Hcs c Hc). }
  apply set_eq. intros k.
  rewrite !elem_of_list_to_set, list_elem_of_In, in_map_iff. split.
  - intros (line & <- & Hin). apply filter_In in Hin as [Hin _].
    apply in_map_iff in Hin as (k' & <- & Hk').
    apply list_elem_of_In in Hk'. by rewrite strip_storable_line by auto.
  - intros Hk. exists (k ++ [LF]).
    rewrite strip_storable_line by auto. split; [reflexivity|].
    apply filter_In. split.
    + apply in_map_iff. exists k. split; [reflexivity|].
      by apply list_elem_of_In.
    + apply negb_true_iff, bool_decide_eq_false.
      rewrite strip_storable_line by auto.
      destruct (Hall k Hk) as ((c & Hhead & _) & _). intros ->. discriminate.
Qed.

(** X3. A file that holds storable keys, every line closed by a line
    feed, by carriage return and line feed, or by a lone carriage return,
    in any mix, loads to exactly these keys. *)
Theorem load_accepts_any_line_end (lines : list (str * line_end)) :
  Forall (fun l => storable l.1) lines ->
  load_seen_ids (File (lines_text lines)) = Returns (list_to_set lines.*1).
Proof.
  intros Hall. simpl. f_equal.
  rewrite universal_newlines_lines by exact Hall.
  apply seen_of_written_lines.
  apply Forall_fmap. exact Hall.
Qed.

Lemma BRN_2_storable : storable BRN_2.
Proof.
  split; [exists 66%N; split; reflexivity|].
  split; [exists 50%N; split; reflexivity|].
  unfold BRN_2. repeat constructor; discriminate.
Qed.

Lemma load_accepts_any_line_end_witness :
  load_seen_ids (File (lit "BRN:1" ++ [CR; LF] ++ lit "BRN:2" ++ [CR]))
  = Returns {[ BRN_1; BRN_2 ]}.
Proof.
  assert (H : Forall (fun l : str * line_end => storable l.1)
                     [(BRN_1, EndCRLF); (BRN_2, EndCR)]).
  { constructor; [exact BRN_1_storable|].
    constructor; [exact BRN_2_storable|constructor]. }
  pose proof (load_accepts_any_line_end _ H) as Hload.
  assert (Hset : list_to_set [(BRN_1, EndCRLF); (BRN_2, EndCR)].*1
                 = ({[ BRN_1; BRN_2 ]} : gset str))
    by (vm_compute; reflexivity).
  rewrite Hset in Hload. exact Hload.
Defined.

Lemma universal_newlines_after_lf (after_cr : bool) (a b : str) :
  universal_newlines after_cr (a ++ LF :: b)
  = universal_newlines after_cr (a ++ [LF]) ++ universal_newlines false b.
Proof.
  revert after_cr. induction a as [|c a IH]; intros after_cr; simpl.
  - destruct after_cr; reflexivity.
  - destruct (N.eqb_spec c CR); [by rewrite IH|].
    destruct (N.eqb_spec c LF); [destruct after_cr|]; by rewrite IH.
Qed.

Lemma universal_newlines_ends (after_cr : bool) (a : str) :
  universal_newlines after_cr (a ++ [LF]) = [] \/
  last (universal_newlines after_cr (a ++ [LF])) = Some LF.
Proof.
  revert after_cr. induction a as [|c a IH]; intros after_cr; simpl.
  - destruct after_cr; auto.
  - assert (Hcons : forall x f,
              last (x :: universal_newlines f (a ++ [LF])) = Some LF \/
              (universal_newlines f (a ++ [LF]) = [] /\ x <> LF)).
    { intros x f. destruct (IH f) as [Hnil|Hlast].
      - rewrite Hnil. simpl. destruct (N.eq_dec x LF) as [->|]; auto.
      - left. rewrite last_cons, Hlast. reflexivity. }
    assert (Hnever : forall f, universal_newlines f (a ++ [LF]) = [] ->
                               a = [] /\ f = true).
    { clear. induction a as [|c a IH]; intros f; simpl.
      - destruct f; [auto|discriminate].
      - destruct (N.eqb_spec c CR); [discriminate|].
        destruct (N.eqb_spec c LF); [|discriminate].
        destruct f; [|discriminate]. intros H. by apply IH in H as [_ ?]. }
    destruct (N.eqb_spec c CR).
    { right. destruct (IH true) as [Hnil|Hlast].
      - rewrite Hnil. reflexivity.
      - rewrite last_cons, Hlast. reflexivity. }
    destruct (N.eqb_spec c LF).
    { destruct after_cr; [apply IH|]. right.
      destruct (IH false) as [Hnil|Hlast].
      - rewrite Hnil. subst. reflexivity.
      - rewrite last_cons, Hlast. reflexivity. }
    right. destruct (IH false) as [Hnil|Hlast].
    + apply Hnever in Hnil as [_ ?]. discriminate.
    + rewrite last_cons, Hlast. reflexivity.
Qed.

Lemma readlines_nil (x : str) : readlines x = [] -> x = [].
Proof.
  destruct x as [|c x]; [reflexivity|]. simpl.
  destruct (c =? LF)%N; [discriminate|].
  destruct (readlines x); discriminate.
Qed.

Lemma readlines_app (x y : str) :
  x = [] \/ last x = Some LF ->
  readlines (x ++ y) = readlines x ++ readlines y.
Proof.
  induction x as [|c x IH]; intros Hx; [reflexivity|].
  destruct Hx as [|Hlast]; [discriminate|].
  assert (Hx : x = [] \/ last x = Some LF).
  { destruct x as [|c' x]; [auto|]. right.
    rewrite last_cons in Hlast.
    destruct (last (c' :: x)) eqn:Hl; [exact Hlast|].
    by apply last_None in Hl. }
  simpl. rewrite (IH Hx).
  destruct (N.eqb_spec c LF); [reflexivity|].
  destruct (readlines x) as [|l ls] eqn:Hr; [|reflexivity].
  apply readlines_nil in Hr. subst. simpl in Hlast. congruence.
Qed.

Lemma seen_of_text_app (x y : str) :
  x = [] \/ last x = Some LF ->
  seen_of_text (x ++ y) = seen_of_text x ∪ seen_of_text y.
Proof.
  intros Hx. unfold seen_of_text.
  rewrite readlines_app by exact Hx.
  rewrite List.filter_app, List.map_app. apply list_to_set_app_L.
Qed.

(** X4. When a file ends in a line feed, what is appended to it only adds
    keys: the file with more text after it loads to the union of what the
    two parts load to, so the order of the lines and repeated lines do not
    matter. *)
Theorem load_of_appended_text (a b : str) :
  exists ids_a ids_b,
    load_seen_ids (File (a ++ [LF])) = Returns ids_a /\
    load_seen_ids (File b) = Returns ids_b /\
    load_seen_ids (File ((a ++ [LF]) ++ b)) = Returns (ids_a ∪ ids_b).
Proof.
  eexists _, _. split; [reflexivity|]. split; [reflexivity|].
  simpl. f_equal. rewrite <- app_assoc. simpl.
  rewrite universal_newlines_after_lf.
  apply seen_of_text_app, universal_newlines_ends.
Qed.

(** ** The seen set over a process and across restarts *)

(** X5. After a turn of the loop that came to its save, starting the
    process again from the saved file brings back exactly the seen set
    that was in memory, provided every key in it is storable. *)
Theorem restart_restores_seen (cfg : Config) (io : CycleIO)
    (p : process) (tickers : list str) :
  Saved ∈ iteration_events cfg io p ->
  set_Forall storable (seen (main_iteration cfg io p).2) ->
  exists p2,
    main_loop_start (path (main_iteration cfg io p).2) tickers = Returns p2 /\
    seen p2 = seen (main_iteration cfg io p).2 /\
    output p2 = [].
Proof.
  intros Hsaved Hst.
  destruct (main_iteration_spec cfg io p) as (_ & _ & _ & _ & Hp).
  unfold main_loop_start. rewrite (Hp Hsaved).
  pose proof (load_after_save None _ Hst) as Hload.
  change (save_seen_ids (openable None) (seen (main_iteration cfg io p).2)).2
    with (File (write_lines (sorted (seen (main_iteration cfg io p).2))))
    in Hload.
  rewrite Hload.
  eexists. split; [reflexivity|]. split; reflexivity.
Qed.

Lemma restart_restores_seen_witness :
  exists p2,
    main_loop_start
      (path (main_iteration plain (turn (serves [(AAPL, [good brn1])]))
               (started ∅)).2) [AAPL; TSLA] = Returns p2 /\
    seen p2 = seen (main_iteration plain (turn (serves [(AAPL, [good brn1])]))
                      (started ∅)).2 /\
    output p2 = [].
Proof.
  assert (Hev : iteration_events plain (turn (serves [(AAPL, [good brn1])]))
                  (started ∅)
                = [Requested AAPL 1000 265598;
                   Published AAPL brn1 (text_of "AAPL" "A");
                   Requested TSLA 1001 76792991; NoNews TSLA; Saved])
    by (vm_compute; reflexivity).
  assert (Hsaved : Saved ∈ iteration_events plain
                             (turn (serves [(AAPL, [good brn1])])) (started ∅))
    by (rewrite Hev; do 4 right; left).
  assert (Hseen : seen (main_iteration plain
                          (turn (serves [(AAPL, [good brn1])])) (started ∅)).2
                  = {[ BRN_1 ]}) by (vm_compute; reflexivity).
  assert (Hst : set_Forall storable
                  (seen (main_iteration plain
                           (turn (serves [(AAPL, [good brn1])]))
                           (started ∅)).2)).
  { rewrite Hseen. intros k Hk. apply elem_of_singleton in Hk. subst k.
    exact BRN_1_storable. }
  exact (restart_restores_seen plain _ (started ∅) [AAPL; TSLA] Hsaved Hst).
Defined.

(** X6. The seen set never loses a key: whatever the gateway, the console
    and the file system do over any number of turns, every key that was
    in the set at the start is in it at the end. *)
Theorem main_loop_keeps_keys (cfg : Config) (ios : list CycleIO) (p : process) :
  seen p ⊆ seen (main_loop cfg ios p).2.
Proof.
  destruct (main_loop_spec cfg ios p) as (_ & _ & Hs & _).
  rewrite Hs. apply replay_subseteq.
Qed.



(** ** The contracts *)

(** X10. The loop never drops, adds or reorders a tracked symbol: after
    any number of turns the contracts carry the same symbols in the same
    order, whether qualification succeeded or failed. *)
Theorem main_loop_keeps_symbols (cfg : Config) (ios : list CycleIO)
    (p : process) :
  (contracts (main_loop cfg ios p).2).*1 = (contracts p).*1.
Proof. by destruct (main_loop_spec cfg ios p) as (_ & _ & _ & ?). Qed.

Lemma dict_set_keys {V} (k : str) (v : V) (d : list (str * V)) :
  (dict_set k v d).*1 = if decide (k ∈ d.*1) then d.*1 else d.*1 ++ [k].
Proof.
  induction d as [|[k' v'] d IH]; cbn [dict_set].
  - case_decide as Hin; [inversion Hin|reflexivity].
  - destruct (decide (k = k')) as [->|Hne]; rewrite !fmap_cons; cbn [fst].
    + clear IH. case_decide as Hin; [reflexivity|].
      exfalso. apply Hin. left.
    + rewrite IH. clear IH.
      repeat case_decide; try reflexivity; exfalso;
        repeat match goal with
               | H : _ ∈ _ :: _ |- _ => apply elem_of_cons in H as [?|?]
               | H : ¬ _ ∈ _ :: _ |- _ => rewrite elem_of_cons in H
               end; tauto.
Qed.

Lemma dict_set_values {V} (P : V -> Prop) (k : str) (v : V)
    (d : list (str * V)) :
  P v -> Forall (fun e => P e.2) d -> Forall (fun e => P e.2) (dict_set k v d).
Proof.
  intros Hv. induction 1 as [|[k' v'] d He Hd IH]; simpl.
  - constructor; [exact Hv|constructor].
  - destruct (decide (k = k')); constructor; simpl; assumption.
Qed.

Lemma build_contracts (tickers : list str) (d : list (str * Contract)) :
  NoDup d.*1 ->
  Forall (fun e => conId e.2 = 0) d ->
  let r := fold_left (fun d t => dict_set t {| conId := 0 |} d) tickers d in
  NoDup r.*1 /\
  (forall t, t ∈ r.*1 <-> t ∈ d.*1 \/ t ∈ tickers) /\
  Forall (fun e => conId e.2 = 0) r.
Proof.
  revert d. induction tickers as [|t tickers IH]; intros d Hnd Hall; simpl.
  - split; [exact Hnd|]. split; [|exact Hall].
    intros t. rewrite elem_of_nil. tauto.
  - assert (Hkeys := dict_set_keys t {| conId := 0 |} d).
    destruct (IH (dict_set t {| conId := 0 |} d)) as (Hnd' & Hin' & Hall').
    + rewrite Hkeys. destruct (decide (t ∈ d.*1)); [exact Hnd|].
      apply NoDup_app. split; [exact Hnd|]. split; [|apply NoDup_singleton].
      intros x Hx Hx'. apply list_elem_of_singleton in Hx'. by subst.
    + by apply (dict_set_values (fun c => conId c = 0)).
    + split; [exact Hnd'|]. split; [|exact Hall'].
      intros x. rewrite Hin', Hkeys, elem_of_cons.
      destruct (decide (t ∈ d.*1)) as [Hin|Hnot].
      * split; [tauto|]. intros [?|[->|?]]; auto.
      * rewrite elem_of_app, list_elem_of_singleton. tauto.
Qed.

(** X11. When the process starts, the contracts hold every configured
    ticker exactly once, whatever repetitions the list has, none of them
    qualified yet; nothing has been emitted, and the seen set is what the
    file loaded to. *)
Theorem start_builds_contracts (file : storage) (tickers : list str)
    (p : process) :
  main_loop_start file tickers = Returns p ->
  NoDup (contracts p).*1 /\
  (forall t, t ∈ (contracts p).*1 <-> t ∈ tickers) /\
  Forall (fun e => conId e.2 = 0) (contracts p) /\
  load_seen_ids file = Returns (seen p) /\
  output p = [].
Proof.
  unfold main_loop_start.
  destruct (load_seen_ids file) as [e|ids]; [discriminate|].
  intros Heq.
  assert (Hp : p = {| seen := ids; path := file;
                      contracts :=
                        fold_left (fun d t => dict_set t {| conId := 0 |} d)
                                  tickers [];
                      output := [] |}) by congruence.
  subst p. simpl.
  destruct (build_contracts tickers []) as (Hnd & Hin & Hall);
    [constructor|constructor|].
  split; [exact Hnd|]. split; [|auto].
  intros t. rewrite Hin, elem_of_nil. tauto.
Qed.

Lemma start_builds_contracts_witness :
  NoDup (contracts {| seen := ∅; path := Absent;
                      contracts :=
                        fold_left (fun d t => dict_set t {| conId := 0 |} d)
                                  [AAPL; TSLA; AAPL] [];
                      output := [] |}).*1.
Proof.
  assert (H : main_loop_start Absent [AAPL; TSLA; AAPL]
              = Returns {| seen := ∅; path := Absent;
                           contracts :=
                             fold_left
                               (fun d t => dict_set t {| conId := 0 |} d)
                               [AAPL; TSLA; AAPL] [];
                           output := [] |}) by reflexivity.
  exact (proj1 (start_builds_contracts _ _ _ H)).
Defined.

(** ** The ticker list *)

Lemma split_no_sep (sep : char) (s : str) :
  Forall (fun piece => sep ∉ piece) (split sep s).
Proof.
  induction s as [|c s IH]; simpl.
  - constructor; [apply not_elem_of_nil|constructor].
  - destruct (N.eqb_spec c sep) as [->|Hne].
    + constructor; [apply not_elem_of_nil|exact IH].
    + destruct (split sep s) as [|piece pieces].
      * constructor; [|constructor].
        intros Hin. apply list_elem_of_singleton in Hin. congruence.
      * inversion IH as [|? ? Hpiece Hrest]; subst.
        constructor; [|exact Hrest].
        intros Hin. apply elem_of_cons in Hin as [?|?]; [congruence|auto].
Qed.

Lemma split_piece (sep : char) (piece rest : str) :
  sep ∉ piece -> split sep (piece ++ sep :: rest) = piece :: split sep rest.
Proof.
  induction piece as [|c piece IH]; intros Hnot; simpl.
  - by rewrite N.eqb_refl.
  - destruct (N.eqb_spec c sep) as [->|_]; [exfalso; apply Hnot; left|].
    rewrite IH; [reflexivity|]. intros Hin. apply Hnot. by right.
Qed.

Lemma split_whole (sep : char) (piece : str) :
  sep ∉ piece -> split sep piece = [piece].
Proof.
  induction piece as [|c piece IH]; intros Hnot; simpl; [reflexivity|].
  destruct (N.eqb_spec c sep) as [->|_]; [exfalso; apply Hnot; left|].
  rewrite IH; [reflexivity|]. intros Hin. apply Hnot. by right.
Qed.

Lemma split_join (sep : char) (pieces : list str) :
  pieces <> [] ->
  Forall (fun piece => sep ∉ piece) pieces ->
  split sep (join [sep] pieces) = pieces.
Proof.
  intros Hne Hall. induction Hall as [|piece pieces Hp Hrest IH];
    [contradiction|].
  destruct pieces as [|piece' pieces].
  - simpl. by apply split_whole.
  - change (join [sep] (piece :: piece' :: pieces))
      with (piece ++ sep :: join [sep] (piece' :: pieces)).
    rewrite split_piece by exact Hp. f_equal. by apply IH.
Qed.

Lemma strip_fixed_point (l : str) : strip (strip l) = strip l.
Proof.
  destruct (strip l) as [|c r] eqn:Hs; [reflexivity|].
  assert (Hne : strip l <> []) by (rewrite Hs; discriminate).
  destruct (strip_head l Hne) as (x & Hx & Hspace).
  destruct (strip_last l Hne) as (y & Hy & Hspace').
  rewrite Hs in Hx, Hy. simpl in Hx. assert (x = c) by congruence. subst x.
  unfold strip at 1. rewrite lstrip_fixed by exact Hspace.
  eapply rstrip_last_nonspace; eassumption.
Qed.

(** X12. Every ticker the configuration yields is not empty, has no
    white space at either end and holds no comma, whatever the
    environment variable is set to. *)
Theorem tickers_are_bare (IB_TICKERS : option str) :
  Forall bare (TICKERS IB_TICKERS).
Proof.
  unfold TICKERS. apply Forall_forall. intros t Ht.
  apply list_elem_of_In, in_map_iff in Ht as (piece & <- & Hin).
  apply filter_In in Hin as [Hin Hne].
  apply negb_true_iff, bool_decide_eq_false in Hne.
  split; [exact Hne|]. split; [apply strip_fixed_point|].
  intros Hc. apply strip_elem_of in Hc.
  pose proof (split_no_sep COMMA (getenv IB_TICKERS (lit "AAPL,TSLA,SPY")))
    as Hall.
  rewrite Forall_forall in Hall.
  by apply (Hall piece); [apply list_elem_of_In|].
Qed.

Lemma strip_filter_bare (ts : list str) :
  Forall bare ts ->
  List.map strip
    (List.filter (fun t => negb (bool_decide (strip t = []))) ts) = ts.
Proof.
  induction 1 as [|t ts (Hne & Hstrip & _) _ IH]; [reflexivity|].
  simpl. rewrite Hstrip.
  rewrite bool_decide_eq_false_2 by exact Hne. simpl.
  by rewrite Hstrip, IH.
Qed.

(** X13. Tickers that are not empty, carry no white space at either end
    and no comma come back unchanged and in order when the variable holds
    them joined by commas. *)
Theorem tickers_round_trip (ts : list str) :
  Forall bare ts -> TICKERS (Some (join [COMMA] ts)) = ts.
Proof.
  intros Hall. unfold TICKERS, getenv.
  destruct ts as [|t ts]; [reflexivity|].
  rewrite split_join; [by apply strip_filter_bare|discriminate|].
  eapply Forall_impl; [exact Hall|]. by intros x (_ & _ & ?).
Qed.

Lemma tickers_round_trip_witness :
  TICKERS (Some (lit "AAPL,TSLA")) = [AAPL; TSLA].
Proof.
  assert (H : Forall bare [AAPL; TSLA]).
  { repeat constructor; try discriminate;
      intros Hin; vm_compute in Hin;
      repeat (apply elem_of_cons in Hin as [Hin|Hin]; [discriminate|]);
      inversion Hin. }
  exact (tickers_round_trip [AAPL; TSLA] H).
Defined.

(** ** Request ids *)

Lemma no_request_within (lo hi : Z) (evs : list event) :
  Forall (fun e => is_request e = false) evs -> requests_within lo hi evs.
Proof.
  intros H. eapply Forall_impl; [exact H|]. intros []; simpl; auto; discriminate.
Qed.

Lemma no_request_request_of (ib : Gateway) (cs : list (str * Contract))
    (evs : list event) :
  Forall (fun e => is_request e = false) evs -> Forall (request_of ib cs) evs.
Proof.
  intros H. eapply Forall_impl; [exact H|]. intros []; simpl; auto; discriminate.
Qed.

Lemma item_events_no_request (evs : list event) :
  Forall (fun e => symbol_event e = false) evs ->
  Forall (fun e => is_request e = false) evs.
Proof.
  intros H. eapply Forall_impl; [exact H|]. intros []; simpl; auto.
Qed.

Lemma publish_tick_frame (cfg : Config) (clk : clock) (symbol : str)
    (io : TickIO) (s : state) :
  exists evs,
    trace (publish_tick cfg clk symbol io s).2 = trace s ++ evs /\
    req_id (publish_tick cfg clk symbol io s).2 = req_id s /\
    Forall (fun e => symbol_event e = false) evs.
Proof.
  rewrite publish_tick_spec. cbv zeta.
  pose proof (article_log_item cfg io) as Hlog.
  pose proof (telegram_log_item cfg clk symbol (tick io)) as Htg.
  destruct (decide (article_key (tick io) ∈ seen_ids s)).
  { eexists. split; [reflexivity|]. split; [reflexivity|]. repeat constructor. }
  destruct (short_time_ago clk (timeStamp (tick io))).
  { eexists. split; [reflexivity|]. split; [reflexivity|]. repeat constructor. }
  destruct (article_interrupted cfg io).
  { exists []. simpl. rewrite app_nil_r. repeat split; constructor. }
  destruct (print_block io) as [e|[]]; eexists;
    (split; [reflexivity|]); (split; [reflexivity|]);
    repeat (apply Forall_app; split); auto; repeat constructor.
Qed.

Lemma publish_ticks_frame (cfg : Config) (clk : clock) (symbol : str)
    (ticks : list TickIO) (s : state) :
  exists evs,
    trace (publish_ticks cfg clk symbol ticks s).2 = trace s ++ evs /\
    req_id (publish_ticks cfg clk symbol ticks s).2 = req_id s /\
    Forall (fun e => symbol_event e = false) evs.
Proof.
  revert s. induction ticks as [|io ticks IH]; intros s.
  - exists []. rewrite app_nil_r. repeat split; constructor.
  - unfold publish_ticks in *. rewrite for_each_cons.
    destruct (publish_tick_frame cfg clk symbol io s) as (e1 & Ht1 & Hr1 & Hq1).
    destruct (publish_tick cfg clk symbol io s) as [[e|[]] s1]; simpl in *.
    + exists e1. auto.
    + destruct (IH s1) as (e2 & Ht2 & Hr2 & Hq2).
      exists (e1 ++ e2). rewrite Ht2, Ht1, Hr2, Hr1, app_assoc.
      repeat split; auto. by apply Forall_app.
Qed.

(** What one symbol adds to the trace and does to the request id. *)
Lemma fetch_symbol_events (cfg : Config) (clk : clock) (ib : Gateway)
    (symbol : str) (c : Contract) (s : state) :
  let s' := (fetch_symbol cfg clk ib (symbol, c) s).2 in
  exists evs,
    trace s' = trace s ++ evs /\
    req_id s <= req_id s' <= req_id s + 1 /\
    requests_within (req_id s) (req_id s + 1) evs /\
    Forall (request_of ib [(symbol, c)]) evs /\
    (conId c <> 0 ->
     exists rest, evs = Requested symbol (req_id s) (conId c) :: rest).
Proof.
  cbv zeta. rewrite fetch_symbol_spec.
  assert (Hself : (symbol, c) ∈ [(symbol, c)]) by left.
  assert (Hreq : forall c0,
            qualified_contract ib symbol c = Returns (Some c0) ->
            request_of ib [(symbol, c)]
              (Requested symbol (req_id s) (conId c0)) /\
            (conId c <> 0 -> c0 = c)).
  { unfold qualified_contract. intros c0.
    destruct (Z.eqb_spec (conId c) 0) as [Hzero|Hcon].
    - destruct (qualifyContracts (ib symbol)) as [e|[|c' details]] eqn:Hq;
        try discriminate.
      intros Heq. assert (c0 = c') by (simpl in Heq; congruence). subst.
      split; [|contradiction]. simpl. exists c. split; [exact Hself|].
      right. eauto.
    - intros Heq. assert (c0 = c) by congruence. subst.
      split; [|reflexivity]. simpl. exists c. split; [exact Hself|]. auto. }
  assert (Hnone : forall c0,
            qualified_contract ib symbol c <> Returns (Some c0) ->
            conId c <> 0 -> c0 = c -> False).
  { unfold qualified_contract. intros c0 Hq Hcon ->.
    destruct (Z.eqb_spec (conId c) 0); [contradiction|]. by apply Hq. }
  destruct (qualified_contract ib symbol c) as [[|]|[c0|]] eqn:Hq.
  - exists [SymbolFailed symbol]. simpl.
    split; [reflexivity|]. split; [lia|].
    split; [repeat constructor|]. split; [repeat constructor|].
    intros Hcon. exfalso. apply (Hnone c); auto; discriminate.
  - exists []. simpl. rewrite app_nil_r.
    split; [reflexivity|]. split; [lia|].
    split; [constructor|]. split; [constructor|].
    intros Hcon. exfalso. apply (Hnone c); auto; discriminate.
  - destruct (Hreq c0 eq_refl) as [Hr Hsame]. cbv zeta.
    assert (Hfirst : forall rest, conId c <> 0 ->
              exists rest0,
                Requested symbol (req_id s) (conId c0) :: rest
                = Requested symbol (req_id s) (conId c) :: rest0).
    { intros rest Hcon. rewrite (Hsame Hcon). eauto. }
    destruct (reqHistoricalNews (ib symbol)) as [[|]|[|io ticks]].
    + exists [Requested symbol (req_id s) (conId c0); SymbolFailed symbol].
      simpl. rewrite <- app_assoc.
      split; [reflexivity|]. split; [lia|].
      split; [repeat constructor; simpl; lia|].
      split; [repeat constructor; exact Hr|apply Hfirst].
    + exists [Requested symbol (req_id s) (conId c0)]. simpl.
      split; [reflexivity|]. split; [lia|].
      split; [repeat constructor; simpl; lia|].
      split; [repeat constructor; exact Hr|apply Hfirst].
    + exists [Requested symbol (req_id s) (conId c0); NoNews symbol].
      simpl. rewrite <- app_assoc.
      split; [reflexivity|]. split; [lia|].
      split; [repeat constructor; simpl; lia|].
      split; [repeat constructor; exact Hr|apply Hfirst].
    + destruct (publish_ticks_frame cfg clk symbol (io :: ticks)
                  (logged s (Requested symbol (req_id s) (conId c0))))
        as (evs & Ht & Hrq & Hq').
      apply item_events_no_request in Hq'.
      destruct (publish_ticks cfg clk symbol (io :: ticks) _)
        as [[[|]|[]] s1]; simpl in Ht, Hrq.
      * exists (Requested symbol (req_id s) (conId c0)
                :: evs ++ [SymbolFailed symbol]).
        simpl. rewrite Ht, <- !app_assoc.
        split; [reflexivity|]. split; [lia|]. split.
        { constructor; [simpl; lia|]. apply Forall_app.
          split; [by apply no_request_within|repeat constructor]. }
        split; [|apply Hfirst].
        constructor; [exact Hr|]. apply Forall_app.
        split; [by apply no_request_request_of|repeat constructor].
      * exists (Requested symbol (req_id s) (conId c0) :: evs).
        simpl. rewrite Ht, <- !app_assoc.
        split; [reflexivity|]. split; [lia|]. split.
        { constructor; [simpl; lia|]. by apply no_request_within. }
        split; [|apply Hfirst].
        constructor; [exact Hr|]. by apply no_request_request_of.
      * exists (Requested symbol (req_id s) (conId c0) :: evs).
        simpl. rewrite Ht, <- !app_assoc.
        split; [reflexivity|]. split; [lia|]. split.
        { constructor; [simpl; lia|]. by apply no_request_within. }
        split; [|apply Hfirst].
        constructor; [exact Hr|]. by apply no_request_request_of.
  - exists [Unqualified symbol]. simpl.
    split; [reflexivity|]. split; [lia|].
    split; [repeat constructor|]. split; [repeat constructor|].
    intros Hcon. exfalso. apply (Hnone c); auto; discriminate.
Qed.

Lemma requests_within_wider (lo hi lo' hi' : Z) (evs : list event) :
  lo' <= lo -> hi <= hi' ->
  requests_within lo hi evs -> requests_within lo' hi' evs.
Proof.
  intros Hlo Hhi H. eapply Forall_impl; [exact H|].
  intros []; simpl; auto. lia.
Qed.

Lemma request_of_more (ib : Gateway) (cs cs' : list (str * Contract))
    (evs : list event) :
  (forall entry, entry ∈ cs -> entry ∈ cs') ->
  Forall (request_of ib cs) evs -> Forall (request_of ib cs') evs.
Proof.
  intros Hsub H. eapply Forall_impl; [exact H|].
  intros []; simpl; auto. intros (c & Hin & Hc). exists c. auto.
Qed.

Lemma run_symbols_events (cfg : Config) (clk : clock) (ib : Gateway)
    (l : list (str * Contract)) (s : state) :
  let s' := run_symbols cfg clk ib l s in
  exists evs,
    trace s' = trace s ++ evs /\
    req_id s <= req_id s' <= req_id s + Z.of_nat (length l) /\
    requests_within (req_id s) (req_id s + Z.of_nat (length l)) evs /\
    Forall (request_of ib l) evs.
Proof.
  cbv zeta. unfold run_symbols. revert s.
  induction l as [|[symbol c] l IH]; intros s.
  - exists []. simpl. rewrite app_nil_r.
    split; [reflexivity|]. split; [lia|]. split; constructor.
  - rewrite for_each_cons.
    destruct (fetch_symbol_events cfg clk ib symbol c s)
      as (e1 & Ht1 & Hr1 & Hw1 & Hq1 & _).
    cbv zeta in Ht1, Hr1.
    change (length ((symbol, c) :: l)) with (S (length l)).
    assert (Hq1' : Forall (request_of ib ((symbol, c) :: l)) e1).
    { eapply request_of_more; [|exact Hq1].
      intros entry Hin. apply list_elem_of_singleton in Hin. subst. left. }
    destruct (fetch_symbol cfg clk ib (symbol, c) s) as [[e|[]] s1];
      cbn [fst snd] in *.
    + exists e1. split; [exact Ht1|]. split; [lia|].
      split; [|exact Hq1'].
      eapply requests_within_wider; [| |exact Hw1]; lia.
    + destruct (IH s1) as (e2 & Ht2 & Hr2 & Hw2 & Hq2).
      exists (e1 ++ e2). rewrite Ht2, Ht1, app_assoc.
      split; [reflexivity|]. split; [lia|]. split.
      * apply Forall_app. split.
        -- eapply requests_within_wider; [| |exact Hw1]; lia.
        -- eapply requests_within_wider; [| |exact Hw2]; lia.
      * apply Forall_app. split; [exact Hq1'|].
        eapply request_of_more; [|exact Hq2]. intros entry Hin. by right.
Qed.

(** X14. Every news request of a cycle carries an id from 1000 up to,
    but not including, 1000 plus the number of contracts. *)
Theorem request_ids_in_range (cfg : Config) (clk : clock) (ib : Gateway)
    (contracts : list (str * Contract)) (s : state) :
  requests_within 1000 (1000 + Z.of_nat (length contracts))
                  (cycle_events cfg clk ib contracts s).
Proof.
  destruct (run_symbols_events cfg clk ib contracts (with_req_id 1000 s))
    as (evs & Ht & _ & Hw & _).
  rewrite (cycle_events_run _ _ _ _ _ _ Ht). exact Hw.
Qed.

(** X15. A news request goes out only for a symbol of the contracts,
    with the contract id of its entry when that is set, and otherwise
    with the id of the first contract the qualification returned; without
    either, no request is made. *)
Theorem requests_need_contract (cfg : Config) (clk : clock) (ib : Gateway)
    (contracts : list (str * Contract)) (s : state) :
  Forall (request_of ib contracts) (cycle_events cfg clk ib contracts s).
Proof.
  destruct (run_symbols_events cfg clk ib contracts (with_req_id 1000 s))
    as (evs & Ht & _ & _ & Hq).
  rewrite (cycle_events_run _ _ _ _ _ _ Ht). exact Hq.
Qed.

(** The events of a cycle around the turn of a symbol that the loop
    reaches. *)
Lemma cycle_events_around (cfg : Config) (clk : clock) (ib : Gateway)
    (before after : list (str * Contract)) (entry : str * Contract)
    (s : state) :
  (for_each before (fetch_symbol cfg clk ib) (with_req_id 1000 s)).1
  = Returns tt ->
  let s1 := run_symbols cfg clk ib before (with_req_id 1000 s) in
  exists e1 e2,
    trace s1 = trace s ++ e1 /\
    cycle_events cfg clk ib (before ++ entry :: after) s
    = e1 ++ new_events (trace s1) (trace (fetch_symbol cfg clk ib entry s1).2)
         ++ e2.
Proof.
  intros Hreach s1.
  destruct (run_symbols_extends cfg clk ib before (with_req_id 1000 s))
    as (e1 & Ht1 & _).
  fold s1 in Ht1. change (trace (with_req_id 1000 s)) with (trace s) in Ht1.
  destruct (fetch_symbol_events cfg clk ib entry.1 entry.2 s1)
    as (eB & HtB & _).
  cbv zeta in HtB. rewrite <- surjective_pairing in HtB.
  exists e1. unfold cycle_events.
  rewrite fetch_and_publish_news_run, (run_symbols_app _ _ _ _ _ _ Hreach).
  fold s1. rewrite for_each_cons, HtB, new_events_app.
  destruct (fetch_symbol cfg clk ib entry s1) as [[e|[]] s2];
    cbn [fst snd] in *.
  - exists []. split; [exact Ht1|].
    rewrite HtB, Ht1, <- app_assoc, app_nil_r. apply new_events_app.
  - destruct (run_symbols_extends cfg clk ib after s2) as (e3 & Ht3 & _).
    unfold run_symbols in Ht3. exists e3. split; [exact Ht1|].
    rewrite Ht3, HtB, Ht1, <- !app_assoc. apply new_events_app.
Qed.



(** X17. The request id does not advance over a symbol whose news
    request raises: the next symbol, when qualified, is requested with
    the very id the failed request used. *)
Theorem failed_request_id_reused (cfg : Config) (clk : clock) (ib : Gateway)
    (before after : list (str * Contract)) (A B : str) (cA cB : Contract)
    (s : state) :
  Forall (fun entry => calm ib entry = true) before ->
  conId cA <> 0 ->
  reqHistoricalNews (ib A) = Raises Exception ->
  conId cB <> 0 ->
  exists n e1 rest,
    cycle_events cfg clk ib (before ++ (A, cA) :: (B, cB) :: after) s
    = e1 ++ [Requested A n (conId cA); SymbolFailed A]
         ++ Requested B n (conId cB) :: rest.
Proof.
  intros Hcalm HcA Hnews HcB.
  pose proof (run_symbols_calm cfg clk ib before (with_req_id 1000 s) Hcalm)
    as Hreach.
  set (s1 := run_symbols cfg clk ib before (with_req_id 1000 s)).
  assert (HA : fetch_symbol cfg clk ib (A, cA) s1
               = (Returns tt,
                  logged (logged s1 (Requested A (req_id s1) (conId cA)))
                         (SymbolFailed A))).
  { rewrite fetch_symbol_spec. unfold qualified_contract.
    destruct (Z.eqb_spec (conId cA) 0) as [|_]; [contradiction|].
    cbv zeta. by rewrite Hnews. }
  assert (Hreach2 : (for_each (before ++ [(A, cA)]) (fetch_symbol cfg clk ib)
                       (with_req_id 1000 s)).1 = Returns tt).
  { rewrite (run_symbols_app _ _ _ _ _ _ Hreach). fold s1.
    rewrite for_each_cons, HA. reflexivity. }
  destruct (cycle_events_around cfg clk ib (before ++ [(A, cA)]) after (B, cB)
              s Hreach2) as (e1 & e2 & Ht1 & Hev).
  assert (Hs2 : run_symbols cfg clk ib (before ++ [(A, cA)])
                  (with_req_id 1000 s)
                = logged (logged s1 (Requested A (req_id s1) (conId cA)))
                         (SymbolFailed A)).
  { unfold run_symbols. rewrite (run_symbols_app _ _ _ _ _ _ Hreach). fold s1.
    rewrite for_each_cons, HA. reflexivity. }
  rewrite Hs2 in Ht1, Hev.
  destruct (run_symbols_extends cfg clk ib before (with_req_id 1000 s))
    as (e0 & Ht0 & _).
  fold s1 in Ht0. change (trace (with_req_id 1000 s)) with (trace s) in Ht0.
  destruct (fetch_symbol_events cfg clk ib B cB
              (logged (logged s1 (Requested A (req_id s1) (conId cA)))
                      (SymbolFailed A)))
    as (eB & HtB & _ & _ & _ & Hfirst).
  cbv zeta in HtB. destruct (Hfirst HcB) as (rest & ->).
  rewrite HtB, new_events_app in Hev.
  exists (req_id s1), e0, (rest ++ e2).
  rewrite <- app_assoc in Hev. simpl in Hev. rewrite Hev.
  simpl in Ht1. rewrite Ht0, <- !app_assoc in Ht1.
  apply app_inv_head in Ht1. rewrite <- Ht1.
  by rewrite <- !app_assoc.
Qed.

Lemma failed_request_id_reused_witness :
  exists n e1 rest,
    cycle_events plain utc_1700000000
      (fun symbol =>
         {| qualifyContracts := Returns [];
            reqHistoricalNews :=
              if decide (symbol = AAPL) then Raises Exception
              else Returns [] |})
      ([] ++ (AAPL, {| conId := 265598 |})
          :: (TSLA, {| conId := 76792991 |}) :: [])
      fresh
    = e1 ++ [Requested AAPL n 265598; SymbolFailed AAPL]
         ++ Requested TSLA n 76792991 :: rest.
Proof.
  exact (failed_request_id_reused plain utc_1700000000
           (fun symbol =>
              {| qualifyContracts := Returns [];
                 reqHistoricalNews :=
                   if decide (symbol = AAPL) then Raises Exception
                   else Returns [] |})
           [] [] AAPL TSLA {| conId := 265598 |} {| conId := 76792991 |} fresh
           ltac:(constructor) ltac:(discriminate) ltac:(reflexivity)
           ltac:(discriminate)).
Defined.

(** X18. Nothing is published that was not fetched: every block of a
    cycle is for a tick the gateway returned in this cycle for the symbol
    the block names, and that symbol is one of the contracts. *)
Theorem published_was_fetched (cfg : Config) (clk : clock) (ib : Gateway)
    (contracts : list (str * Contract)) (s : state) :
  Forall (from_gateway ib contracts) (cycle_events cfg clk ib contracts s).
Proof. by destruct (cycle_events_spec cfg clk ib contracts s) as (_ & _ & _ & ?). Qed.

(** ** Chat messages *)

Lemma telegram_paired_nil (cfg : Config) : telegram_paired cfg [].
Proof. unfold telegram_paired. by destruct (telegram cfg). Qed.

Lemma telegram_paired_app (cfg : Config) (a b : list event) :
  telegram_paired cfg a -> telegram_paired cfg b ->
  telegram_paired cfg (a ++ b).
Proof.
  unfold telegram_paired, telegram_count, published_count.
  rewrite List.filter_app, published_keys_app, !length_app.
  destruct (telegram cfg); lia.
Qed.

Lemma telegram_paired_symbol_event (cfg : Config) (e : event) :
  symbol_event e = true -> telegram_paired cfg [e].
Proof.
  unfold telegram_paired.
  destruct e; simpl; try discriminate; by destruct (telegram cfg).
Qed.

Lemma appends_publish_tick_paired (cfg : Config) (clk : clock) (symbol : str)
    (io : TickIO) :
  appends (telegram_paired cfg) (publish_tick cfg clk symbol io).
Proof.
  intros s. rewrite publish_tick_spec. cbv zeta.
  destruct (decide (article_key (tick io) ∈ seen_ids s)).
  { eexists. split; [reflexivity|]. unfold telegram_paired.
    by destruct (telegram cfg). }
  destruct (short_time_ago clk (timeStamp (tick io))) as [e|ago] eqn:Hago.
  { eexists. split; [reflexivity|]. unfold telegram_paired.
    by destruct (telegram cfg). }
  destruct (article_interrupted cfg io).
  { exists []. simpl. rewrite app_nil_r. split; [reflexivity|].
    apply telegram_paired_nil. }
  destruct (print_block io) as [e|[]]; eexists; (split; [reflexivity|]);
    unfold telegram_paired, article_log, telegram_log; rewrite ?Hago;
    destruct (FETCH_ARTICLE_BODY cfg), (reqNewsArticle io), (telegram cfg);
    reflexivity.
Qed.

(** X19. With the bot configured, a cycle hands the chat transport
    exactly as many messages as it wrote blocks to the console; without
    it, none. *)
Theorem telegram_matches_published (cfg : Config) (clk : clock) (ib : Gateway)
    (contracts : list (str * Contract)) (s : state) :
  telegram_count (cycle_events cfg clk ib contracts s)
  = if telegram cfg
    then published_count (cycle_events cfg clk ib contracts s)
    else 0%nat.
Proof.
  change (telegram_paired cfg (cycle_events cfg clk ib contracts s)).
  apply (appends_cycle (telegram_paired cfg)).
  - apply telegram_paired_nil.
  - apply telegram_paired_app.
  - apply telegram_paired_symbol_event.
  - intros symbol io. apply appends_publish_tick_paired.
Qed.
